(** * chempy.equilibria: a shallow embedding and its checked properties

    The development follows [chempy/equilibria.py].

    Numbers.  A Python / numpy float is modelled by the type [float] below:
    a finite value is an exact rational, and the three non-finite values of
    IEEE arithmetic ([inf], [-inf], [nan]) are kept, because the code divides
    by stoichiometric coefficients and raises concentrations to negative
    powers.  Rounding and the sign of zero are not modelled: a division of a
    positive number by zero gives [inf], as for [+0.0].

    Double precision.  Where the answer of the code depends on rounding,
    the function is given a second time over IEEE 754 binary64, with the
    arithmetic of [SpecFloat] (round to nearest, ties to even); a property
    that holds over [float] only is stated as one of exact arithmetic.

    Arrays.  A one-dimensional numpy array is a list.  An elementwise
    operation on two arrays of different lengths raises [ValueError]
    (numpy's broadcasting of a length-one operand is not part of the model).

    Exceptions.  A function that can raise returns a [result].

    Transcendental functions.  The variable transforms ([NumSysLog] and the
    pre/post-processors) use [log], [exp], [sqrt], [tanh] and [arctanh];
    they are modelled over the real numbers, where a result that is not a
    real number ([inf], [nan]) raises [FloatingPointError].  Unlike in
    double precision, over the real numbers [exp] neither underflows nor
    overflows and [tanh] never reaches [1]. *)

From Stdlib Require Import String List ZArith QArith Qabs Bool Lia Psatz.
From Stdlib Require Import Reals.
From Stdlib Require Import SpecFloat.
Import ListNotations.

(* ===================================================================== *)
(** * Exceptions *)
(* ===================================================================== *)

Inductive exn : Type :=
| ValueError (msg : string)
| IndexError
| NotImplementedError
| FloatingPointError.

Inductive result (A : Type) : Type :=
| Ok (a : A)
| Raise (e : exn).

Arguments Ok {A} a.
Arguments Raise {A} e.

Definition bind {A B} (m : result A) (k : A -> result B) : result B :=
  match m with
  | Ok a => k a
  | Raise e => Raise e
  end.

Declare Scope result_scope.
Delimit Scope result_scope with result.
Notation "x <- m ;; k" := (bind m (fun x => k))
  (at level 61, m at next level, right associativity) : result_scope.

(* ===================================================================== *)
(** * The float model *)
(* ===================================================================== *)

Module Float.

Local Open Scope Q_scope.

Inductive float : Type :=
| Fin (q : Q)
| PInf
| NInf
| NaN.

Definition of_Z (z : Z) : float := Fin (inject_Z z).

Definition zero : float := Fin 0.
Definition one : float := Fin 1.

(** Sign of a rational, computed. *)
Definition Qsgn (q : Q) : comparison := q ?= 0.

Definition is_nan (x : float) : bool :=
  match x with NaN => true | _ => false end.

Definition is_finite (x : float) : bool :=
  match x with Fin _ => true | _ => false end.

Definition fneg (x : float) : float :=
  match x with
  | Fin q => Fin (- q)
  | PInf => NInf
  | NInf => PInf
  | NaN => NaN
  end.

Definition fadd (x y : float) : float :=
  match x, y with
  | NaN, _ | _, NaN => NaN
  | Fin a, Fin b => Fin (a + b)
  | PInf, NInf | NInf, PInf => NaN
  | PInf, _ | _, PInf => PInf
  | NInf, _ | _, NInf => NInf
  end.

Definition fsub (x y : float) : float := fadd x (fneg y).

(** [inf_signed c]: the infinity of sign [c], [nan] for sign zero. *)
Definition inf_signed (c : comparison) : float :=
  match c with
  | Gt => PInf
  | Lt => NInf
  | Eq => NaN
  end.

Definition fmul (x y : float) : float :=
  match x, y with
  | NaN, _ | _, NaN => NaN
  | Fin a, Fin b => Fin (a * b)
  | Fin a, PInf | PInf, Fin a => inf_signed (Qsgn a)
  | Fin a, NInf | NInf, Fin a => inf_signed (CompOpp (Qsgn a))
  | PInf, PInf | NInf, NInf => PInf
  | PInf, NInf | NInf, PInf => NInf
  end.

(** Division; a zero divisor is taken as [+0.0]. *)
Definition fdiv (x y : float) : float :=
  match x, y with
  | NaN, _ | _, NaN => NaN
  | Fin a, Fin b =>
      match Qsgn b with
      | Eq => inf_signed (Qsgn a)
      | _ => Fin (a / b)
      end
  | Fin _, _ => Fin 0
  | PInf, Fin b => match Qsgn b with Lt => NInf | _ => PInf end
  | NInf, Fin b => match Qsgn b with Lt => PInf | _ => NInf end
  | _, _ => NaN
  end.

(** [x < y]; false as soon as an operand is [nan]. *)
Definition fltb (x y : float) : bool :=
  match x, y with
  | NaN, _ | _, NaN => false
  | Fin a, Fin b => match a ?= b with Lt => true | _ => false end
  | NInf, NInf | PInf, _ | _, NInf => false
  | NInf, _ | _, PInf => true
  end.

Definition fgtb (x y : float) : bool := fltb y x.

(** [np.maximum] / [np.minimum] of two values: [nan] propagates. *)
Definition fmax (x y : float) : float :=
  if is_nan x then x else if is_nan y then y
  else if fltb x y then y else x.

Definition fmin (x y : float) : float :=
  if is_nan x then x else if is_nan y then y
  else if fltb y x then y else x.

(** [x ** n] for an integer exponent: [x ** 0] is [1] for every [x],
    a negative exponent is the reciprocal of the positive power. *)
Definition fpow_pos (x : float) (p : positive) : float :=
  Pos.iter (fmul x) one p.

Definition fpow (x : float) (n : Z) : float :=
  match n with
  | Z0 => one
  | Zpos p => fpow_pos x p
  | Zneg p => fdiv one (fpow_pos x p)
  end.

(** Equality of values: rationals are compared by their value. *)
Definition feq (x y : float) : Prop :=
  match x, y with
  | Fin a, Fin b => a == b
  | PInf, PInf | NInf, NInf | NaN, NaN => True
  | _, _ => False
  end.

(** The order of the extended number line, as a proposition. *)
Definition flt (x y : float) : Prop :=
  match x, y with
  | Fin a, Fin b => a < b
  | NInf, Fin _ | NInf, PInf | Fin _, PInf => True
  | _, _ => False
  end.

Definition fle (x y : float) : Prop :=
  match x, y with
  | Fin a, Fin b => a <= b
  | NInf, NaN => False
  | NInf, _ => True
  | Fin _, PInf | PInf, PInf => True
  | _, _ => False
  end.

End Float.

Export Float.

Arguments fadd !x !y /.
Arguments fmul !x !y /.
Arguments fdiv !x !y /.
Arguments fltb !x !y /.
Arguments fneg !x /.

Declare Scope float_scope.
Delimit Scope float_scope with float.
Infix "+" := fadd : float_scope.
Infix "-" := fsub : float_scope.
Infix "*" := fmul : float_scope.
Infix "/" := fdiv : float_scope.
Notation "- x" := (fneg x) : float_scope.
Infix "<?" := fltb : float_scope.
Infix ">?" := fgtb (at level 70, no associativity) : float_scope.
Infix "**" := fpow (at level 30, right associativity) : float_scope.

(* ===================================================================== *)
(** * Number types *)
(* ===================================================================== *)

(** The code is generic in its numbers ([dtype], [backend]): numpy floats,
    or symbolic expressions that stand for real numbers.  [Num] collects the
    operations it uses.  A division may have no value in the number type
    (division by zero over the reals); it then raises. *)
Class Num (T : Type) : Type := {
  n_zero : T;
  n_of_Z : Z -> T;
  n_add : T -> T -> T;
  n_sub : T -> T -> T;
  n_mul : T -> T -> T;
  n_neg : T -> T;
  n_div : T -> T -> result T;
  n_ltb : T -> T -> bool
}.

(** numpy floats: every division has a value, possibly [inf] or [nan]. *)
#[export] Instance float_Num : Num float := {|
  n_zero := zero;
  n_of_Z := of_Z;
  n_add := fadd;
  n_sub := fsub;
  n_mul := fmul;
  n_neg := fneg;
  n_div := fun x y => Ok (fdiv x y);
  n_ltb := fltb
|}.

(* ===================================================================== *)
(** * Arrays *)
(* ===================================================================== *)

Section Arrays.

Context {A B C : Type}.

(** Elementwise binary operation on two arrays of the same shape. *)
Fixpoint zip_with (f : A -> B -> C) (xs : list A) (ys : list B)
  : result (list C) :=
  match xs, ys with
  | [], [] => Ok []
  | x :: xs', y :: ys' =>
      match zip_with f xs' ys' with
      | Ok r => Ok (f x y :: r)
      | Raise e => Raise e
      end
  | _, _ => Raise (ValueError "operands could not be broadcast together")
  end.

(** Python's [zip]: stops at the shorter argument. *)
Fixpoint pyzip (xs : list A) (ys : list B) : list (A * B) :=
  match xs, ys with
  | x :: xs', y :: ys' => (x, y) :: pyzip xs' ys'
  | _, _ => []
  end.

(** [xs[i]] for a non-negative index. *)
Definition getitem (xs : list A) (i : nat) : result A :=
  match nth_error xs i with
  | Some x => Ok x
  | None => Raise IndexError
  end.

(** [xs[idxs]] for an array of indices. *)
Fixpoint take (xs : list A) (idxs : list nat) : result (list A) :=
  match idxs with
  | [] => Ok []
  | i :: rest =>
      match getitem xs i, take xs rest with
      | Ok x, Ok r => Ok (x :: r)
      | Raise e, _ => Raise e
      | _, Raise e => Raise e
      end
  end.

End Arrays.

(** [np.any]. *)
Definition np_any (bs : list bool) : bool := existsb (fun b => b) bs.

(** [np.max] and [np.min] of an array; numpy raises on an empty one. *)
Definition np_max (xs : list float) : result float :=
  match xs with
  | [] => Raise (ValueError "zero-size array to reduction operation")
  | x :: r => Ok (fold_left fmax r x)
  end.

Definition np_min (xs : list float) : result float :=
  match xs with
  | [] => Raise (ValueError "zero-size array to reduction operation")
  | x :: r => Ok (fold_left fmin r x)
  end.

(** [np.nonzero(stoich)]: the indices of the nonzero entries. *)
Fixpoint nonzero_from (i : nat) (stoich : list Z) : list nat :=
  match stoich with
  | [] => []
  | s :: r =>
      if Z.eqb s 0 then nonzero_from (S i) r else i :: nonzero_from (S i) r
  end.

Definition np_nonzero (stoich : list Z) : list nat := nonzero_from 0 stoich.

(* ===================================================================== *)
(** * The single-reaction coordinate solver *)
(* ===================================================================== *)

Local Open Scope result_scope.

(** A bound of the interval is either the Python integer [0] (the object
    the [else] branches assign) or a numpy float. [get_rc_interval] tests
    [lower is 0 and upper is 0], an identity test that only the integer
    object passes. *)
Inductive bound : Type :=
| Int0
| Flt (x : float).

Definition is_int0 (b : bound) : bool :=
  match b with Int0 => true | Flt _ => false end.

(** The number a bound stands for. *)
Definition bound_val (b : bound) : float :=
  match b with Int0 => zero | Flt x => x end.

(** [limits = c0/stoich] *)
Definition rc_limits (stoich : list Z) (c0 : list float)
  : result (list float) :=
  zip_with fdiv c0 (map of_Z stoich).

Definition neg_limits (limits : list float) : list float :=
  filter (fun l => (l <? zero)%float) limits.

Definition pos_limits (limits : list float) : list float :=
  filter (fun l => (l >? zero)%float) limits.

Definition rc_upper (limits : list float) : result bound :=
  if np_any (map (fun l => (l <? zero)%float) limits)
  then m <- np_max (neg_limits limits) ;; Ok (Flt (- m)%float)
  else Ok Int0.

Definition rc_lower (limits : list float) : result bound :=
  if np_any (map (fun l => (l >? zero)%float) limits)
  then m <- np_min (pos_limits limits) ;; Ok (Flt (- m)%float)
  else Ok Int0.

Definition get_rc_interval (stoich : list Z) (c0 : list float)
  : result (bound * bound) :=
  limits <- rc_limits stoich c0 ;;
  upper <- rc_upper limits ;;
  lower <- rc_lower limits ;;
  if is_int0 lower && is_int0 upper
  then Raise (ValueError "0-interval")
  else Ok (lower, upper).

(** Modelled from the spec: [equilibrium_quotient] lives in
    [chempy/chemistry.py], which is not among the sources.  The
    glossary defines the reaction quotient as the product of the current
    concentrations raised to their stoichiometric powers. *)
Definition equilibrium_quotient (concs : list float) (stoich : list Z)
  : float :=
  fold_left (fun tot nc => (tot * (snd nc) ** (fst nc))%float)
            (pyzip stoich concs) one.

(** [c0 + stoich*rc], exact over [float]. *)
Definition conc_at (rc : float) (c0 : list float) (stoich : list Z)
  : result (list float) :=
  zip_with fadd c0 (map (fun s => (of_Z s * rc)%float) stoich).

(** [equilibrium_residual], for a one-dimensional [stoich] (the branch taken
    by every call in this module). *)
Definition equilibrium_residual (rc : float) (c0 : list float)
    (stoich : list Z) (K : float)
    (activity_product : option (list float -> float)) : result float :=
  c <- conc_at rc c0 stoich ;;
  let Q := equilibrium_quotient c stoich in
  let Q := match activity_product with
           | Some ap => (Q * ap c)%float
           | None => Q
           end in
  Ok (K - Q)%float.

Section Brentq.

(** [scipy.optimize.brentq(f, a, b)], the external bracketing root finder. *)
Variable brentq : (float -> result float) -> float -> float -> result float.

Definition _solve_equilibrium_coord (c0 : list float) (stoich : list Z)
    (K : float) (activity_product : option (list float -> float))
  : result float :=
  let mask := np_nonzero stoich in
  stoich_m <- take stoich mask ;;
  c0_m <- take c0 mask ;;
  lu <- get_rc_interval stoich_m c0_m ;;
  brentq (fun rc => equilibrium_residual rc c0_m stoich_m K activity_product)
         (bound_val (fst lu)) (bound_val (snd lu)).

Definition solve_equilibrium (c0 : list float) (stoich : list Z)
    (K : float) (activity_product : option (list float -> float))
  : result (list float) :=
  rc <- _solve_equilibrium_coord c0 stoich K activity_product ;;
  zip_with fadd c0 (map (fun s => (rc * of_Z s)%float) stoich).

End Brentq.


(** ** The interval, in the words of the specification *)

(** The quotient [c/s] of a concentration by a nonzero integer coefficient,
    as a number of the extended line. *)
Definition ratio (c : float) (s : Z) : float :=
  match c with
  | Fin q => Fin (q / inject_Z s)
  | PInf => if (s <? 0)%Z then NInf else PInf
  | NInf => if (s <? 0)%Z then PInf else NInf
  | NaN => NaN
  end.

(** [ratios] lists the quotients [c0_i/stoich_i]. *)
Definition ratios_of (stoich : list Z) (c0 ratios : list float) : Prop :=
  length ratios = length c0 /\ length c0 = length stoich /\
  forall i c s, nth_error c0 i = Some c -> nth_error stoich i = Some s ->
                nth_error ratios i = Some (ratio c s).

(** [m] is the maximum of the negative ratios / the minimum of the positive
    ones. *)
Definition is_max_negative (ratios : list float) (m : float) : Prop :=
  In m ratios /\ flt m zero /\
  forall r, In r ratios -> flt r zero -> fle r m.

Definition is_min_positive (ratios : list float) (m : float) : Prop :=
  In m ratios /\ flt zero m /\
  forall r, In r ratios -> flt zero r -> fle m r.

Definition upper_bound_spec (ratios : list float) (u : float) : Prop :=
  (exists m, is_max_negative ratios m /\ u = fneg m) \/
  ((forall r, In r ratios -> ~ flt r zero) /\ u = zero).

Definition lower_bound_spec (ratios : list float) (l : float) : Prop :=
  (exists m, is_min_positive ratios m /\ l = fneg m) \/
  ((forall r, In r ratios -> ~ flt zero r) /\ l = zero).


(** ** A bisection root finder

    [scipy.optimize.brentq] is external.  To run the solver on concrete
    inputs a plain bisection with the same interface stands in for it: it
    refuses a bracket without a sign change, as [brentq] does. *)

Definition is_zero (x : float) : bool :=
  negb (is_nan x) && negb (x <? zero)%float && negb (zero <? x)%float.

Definition same_sign (a b : float) : bool :=
  ((zero <? a)%float && (zero <? b)%float) ||
  ((a <? zero)%float && (b <? zero)%float).

Fixpoint bisect_loop (fuel : nat) (f : float -> result float)
    (lo hi flo : float) : result float :=
  match fuel with
  | O => Ok lo
  | S n =>
      let mid := ((lo + hi) / Fin 2)%float in
      fm <- f mid ;;
      if is_zero fm then Ok mid
      else if same_sign flo fm then bisect_loop n f mid hi fm
      else bisect_loop n f lo mid flo
  end.

Definition bisect (f : float -> result float) (lo hi : float) : result float :=
  flo <- f lo ;;
  fhi <- f hi ;;
  if same_sign flo fhi
  then Raise (ValueError "f(a) and f(b) must have different signs")
  else if is_zero flo then Ok lo
  else if is_zero fhi then Ok hi
  else bisect_loop 60 f lo hi flo.

(** ** The single-reaction solve, in the words of the specification *)

(** The entries of [xs] at the species with a nonzero coefficient. *)
Fixpoint compress {A} (stoich : list Z) (xs : list A) : list A :=
  match stoich, xs with
  | s :: stoich', x :: xs' =>
      if Z.eqb s 0 then compress stoich' xs' else x :: compress stoich' xs'
  | _, _ => []
  end.

(** The bracket: [get_rc_interval] on the species with a nonzero
    coefficient. *)
Definition rc_bracket (c0 : list float) (stoich : list Z)
  : result (bound * bound) :=
  get_rc_interval (compress stoich stoich) (compress stoich c0).

Definition in_bracket (lu : bound * bound) (rc : float) : Prop :=
  fle (bound_val (fst lu)) rc /\ fle rc (bound_val (snd lu)).

Definition nondegenerate (lu : bound * bound) : Prop :=
  ~ feq (bound_val (fst lu)) (bound_val (snd lu)).

(** [rc] is a root of [K - Q(c0 + rc*stoich)*activity_product]. *)
Definition is_root (rc : float) (c0 : list float) (stoich : list Z)
    (K : float) (activity_product : option (list float -> float)) : Prop :=
  exists r, equilibrium_residual rc c0 stoich K activity_product = Ok r /\
            feq r zero.

(** [x] is [c0 + rc*stoich]. *)
Definition is_step (rc : float) (c0 : list float) (stoich : list Z)
    (x : list float) : Prop :=
  length x = length c0 /\
  forall i c s, nth_error c0 i = Some c -> nth_error stoich i = Some s ->
                nth_error x i = Some (c + rc * of_Z s)%float.

(** The property as the specification words it, for a given root finder and
    input. *)
Definition solve_equilibrium_finds_root
    (brentq : (float -> result float) -> float -> float -> result float)
    (c0 : list float) (stoich : list Z) (K : float)
    (activity_product : option (list float -> float)) : Prop :=
  (exists s, In s stoich /\ s <> 0%Z) ->
  forall lu, rc_bracket c0 stoich = Ok lu -> nondegenerate lu ->
  exists rc x,
    solve_equilibrium brentq c0 stoich K activity_product = Ok x /\
    is_step rc c0 stoich x /\
    in_bracket lu rc /\
    is_root rc c0 stoich K activity_product.

(* ===================================================================== *)
(** * Substances, reactions and the equilibrium system *)
(* ===================================================================== *)

(** A substance: its [composition] dictionary (conserved-quantity id to
    coefficient, id [0] being the charge), in iteration order. *)
Record Substance : Type := {
  composition : list (Z * Z);
  phase_idx : nat
}.

(** A reaction of the system.  The class [Equilibrium] lives in
    [chempy/chemistry.py], which is not among the sources; what the code of
    this module asks of a reaction is taken as data:
    [param] is [eq.param], [has_precipitates] is
    [r.has_precipitates(self.substances)], [net_stoich] is
    [r.net_stoich(self.substances)], [precipitate_stoich] is the triple
    [(s_net, s_stoich, s_idx)] returned by
    [r.precipitate_stoich(self.substances)], [rxn_Q] is
    [concs => rxn.Q(self.substances, concs)] and [rxn_K] is [rxn.K()]. *)
Record Equilibrium : Type := {
  param : float;
  has_precipitates : bool;
  net_stoich : list Z;
  precipitate_stoich : list Z * Z * nat;
  rxn_Q : list float -> float;
  rxn_K : float
}.

Definition s_stoich (r : Equilibrium) : Z := snd (fst (precipitate_stoich r)).
Definition s_idx (r : Equilibrium) : nat := snd (precipitate_stoich r).

Record EqSystem : Type := {
  substances : list Substance;
  rxns : list Equilibrium
}.

Definition ns (sys : EqSystem) : nat := length (substances sys).
Definition nr (sys : EqSystem) : nat := length (rxns sys).

(** ** [EqSystem.eq_constants] *)

(** [[small if idx in non_precip_rids else eq_params[idx]
      for idx, eq in enumerate(eq_params)]] *)
Fixpoint eq_constants_from {T} (idx : nat) (non_precip_rids : list nat)
    (eq_params : list T) (small : T) : list T :=
  match eq_params with
  | [] => []
  | eq :: rest =>
      (if existsb (Nat.eqb idx) non_precip_rids then small else eq)
      :: eq_constants_from (S idx) non_precip_rids rest small
  end.

Definition eq_constants (sys : EqSystem) (non_precip_rids : list nat)
    (eq_params : option (list float)) (small : float) : list float :=
  let eq_params := match eq_params with
                   | None => map param (rxns sys)
                   | Some p => p
                   end in
  eq_constants_from 0 non_precip_rids eq_params small.

Fixpoint mapM {A B} (f : A -> result B) (xs : list A) : result (list B) :=
  match xs with
  | [] => Ok []
  | x :: r => y <- f x ;; ys <- mapM f r ;; Ok (y :: ys)
  end.

Section UpperConcBounds.

Context {T : Type} `{Num T}.

(** ** [defaultdict(float)] keyed by conserved-quantity ids *)

Fixpoint dict_get (d : list (Z * T)) (k : Z) : T :=
  match d with
  | [] => n_zero
  | (k', v) :: rest => if Z.eqb k k' then v else dict_get rest k
  end.

(** [d[k] += v] *)
Fixpoint dict_iadd (d : list (Z * T)) (k : Z) (v : T) : list (Z * T) :=
  match d with
  | [] => [(k, n_add n_zero v)]
  | (k', w) :: rest =>
      if Z.eqb k k' then (k', n_add w v) :: rest
      else (k', w) :: dict_iadd rest k v
  end.

(** Python's builtin [min] on a list. *)
Definition py_min (xs : list T) : result T :=
  match xs with
  | [] => Raise (ValueError "min() arg is an empty sequence")
  | x :: r => Ok (fold_left (fun best y => if n_ltb y best then y else best)
                            r x)
  end.

(** ** [EqSystem.upper_conc_bounds]

    [init_concs] is the per-substance array ([as_per_substance_array] on an
    array). *)

Definition add_composition (conc : T) (d : list (Z * T)) (item : Z * Z)
  : list (Z * T) :=
  let (comp_nr, coeff) := item in
  if Z.eqb comp_nr 0 then d
  else dict_iadd d comp_nr (n_mul (n_of_Z coeff) conc).

Definition composition_conc (sys : EqSystem) (init_concs : list T)
  : list (Z * T) :=
  fold_left (fun d cs => fold_left (add_composition (fst cs))
                           (composition (snd cs)) d)
            (pyzip init_concs (substances sys)) [].

Definition choose_from (d : list (Z * T)) (s_obj : Substance)
  : result (list T) :=
  mapM (fun item => n_div (dict_get d (fst item)) (n_of_Z (snd item)))
       (filter (fun item => negb (Z.eqb (fst item) 0)) (composition s_obj)).

Definition upper_conc_bounds (sys : EqSystem) (init_concs : list T)
    (min_ : list T -> result T) : result (list T) :=
  let d := composition_conc sys init_concs in
  mapM (fun s_obj => c <- choose_from d s_obj ;; min_ c) (substances sys).

End UpperConcBounds.

(** ** [EqSystem.dissolved]

    Over [float] the quotient, the product and the difference are exact;
    [dissolved64] below is the same loop in double precision. *)

Definition dissolved_step (new_concs : list float) (r : Equilibrium)
  : result (list float) :=
  if has_precipitates r then
    c <- getitem new_concs (s_idx r) ;;
    let factor := (c / of_Z (s_stoich r))%float in
    zip_with fsub new_concs
             (map (fun n => (factor * of_Z n)%float) (net_stoich r))
  else Ok new_concs.

Fixpoint dissolved_loop (rs : list Equilibrium) (new_concs : list float)
  : result (list float) :=
  match rs with
  | [] => Ok new_concs
  | r :: rest => n <- dissolved_step new_concs r ;; dissolved_loop rest n
  end.

Definition dissolved (sys : EqSystem) (concs : list float)
  : result (list float) :=
  dissolved_loop (rxns sys) concs.

(** ** The phase conditions *)

Definition rtol_default : float := Fin (1 # 100000000000000).

Definition fw_cond (sys : EqSystem) (rxn : Equilibrium) (rtol : float)
    (x p : list float) : result bool :=
  let precip_stoich_coeff := s_stoich rxn in
  d <- dissolved sys x ;;
  let q := rxn_Q rxn d in
  let k := rxn_K rxn in
  if (precip_stoich_coeff >? 0)%Z then Ok (q * (one + rtol) <? k)%float
  else if (precip_stoich_coeff <? 0)%Z then Ok (q >? k * (one + rtol))%float
  else Raise NotImplementedError.

Definition _fw_cond_factory (sys : EqSystem) (ri : nat) (rtol : option float)
  : result (list float -> list float -> result bool) :=
  rxn <- getitem (rxns sys) ri ;;
  Ok (fw_cond sys rxn (match rtol with Some t => t | None => rtol_default end)).

Definition bw_cond (rxn : Equilibrium) (small : float) (x p : list float)
  : result bool :=
  let precipitate_idx := s_idx rxn in
  xi <- getitem x precipitate_idx ;;
  if (xi <? small)%float then Ok false else Ok true.

Definition _bw_cond_factory (sys : EqSystem) (ri : nat) (small : float)
  : result (list float -> list float -> result bool) :=
  rxn <- getitem (rxns sys) ri ;;
  Ok (bw_cond rxn small).

(** ** The sanity check and [_solve] *)

Inductive warning : Type :=
| NegativeConcentration      (* "Negative concentration" *)
| TooMuch                    (* "Too much of at least one component" *)
| RootFindingFailed.         (* "Root-finding indicated as failed by solver." *)

Definition sane_tol : float := (one + Fin (1 # 1000000000000))%float.

Definition _result_is_sane (sys : EqSystem) (init_concs x : list float)
  : result (bool * list warning) :=
  sc_upper_bounds <- upper_conc_bounds sys init_concs py_min ;;
  let neg_conc := np_any (map (fun xi => (xi <? zero)%float) x) in
  gt <- zip_with fgtb x (map (fun b => (b * sane_tol)%float) sc_upper_bounds) ;;
  let too_much := np_any gt in
  if neg_conc || too_much then
    Ok (false, (if neg_conc then [NegativeConcentration] else []) ++
               (if too_much then [TooMuch] else []))
  else Ok (true, []).

(** The diagnostics dictionary of the external solver. *)
Record solution : Type := {
  success : bool;
  nfev : nat;
  njev : nat
}.

Section Solve.

(** [neqsys.solve], the external nonlinear solver, for the system built by
    [get_neqsys]. *)
Variable neqsys_solve :
  list float -> list float -> result (list float * solution).

Definition _solve (sys : EqSystem) (init_concs : list float)
    (x0 : option (list float))
  : result (list float * solution * bool * list warning) :=
  let x0 := match x0 with None => init_concs | Some v => v end in
  let params := init_concs ++ eq_constants sys [] None zero in
  xs <- neqsys_solve x0 params ;;
  let (x, sol) := xs in
  let w1 := if success sol then [] else [RootFindingFailed] in
  sw <- _result_is_sane sys init_concs x ;;
  let (sane, w2) := sw in
  Ok (x, sol, sane, w1 ++ w2).

End Solve.

(** ** Conservation *)

(** [np.dot] of an integer row and a float vector. *)
Definition np_dot (row : list Z) (v : list float) : result float :=
  prods <- zip_with fmul (map of_Z row) v ;;
  Ok (fold_left fadd prods zero).

Definition comp_get (s : Substance) (k : Z) : Z :=
  match find (fun item => Z.eqb (fst item) k) (composition s) with
  | Some item => snd item
  | None => 0%Z
  end.

(** Modelled from the spec: [composition_balance_vectors] belongs to
    [ReactionSystem] in [chempy/chemistry.py], which is not among the
    sources.  The specification describes the balance vectors as one row per
    conserved composition id, excluding charge, a row holding the weight of
    that id in each substance. *)
Definition composition_keys (sys : EqSystem) : list Z :=
  nodup Z.eq_dec
    (filter (fun k => negb (Z.eqb k 0))
       (flat_map (fun s => map fst (composition s)) (substances sys))).

Definition composition_balance_vectors (sys : EqSystem)
  : list (list Z) * list Z :=
  (map (fun k => map (fun s => comp_get s k) (substances sys))
       (composition_keys sys),
   composition_keys sys).

Definition composition_conservation (sys : EqSystem)
    (concs init_concs : list float)
  : result (list Z * list float * list float) :=
  let (composition_vecs, comp_keys) := composition_balance_vectors sys in
  m1 <- mapM (fun row => np_dot row concs) composition_vecs ;;
  m2 <- mapM (fun row => np_dot row init_concs) composition_vecs ;;
  Ok (comp_keys, m1, m2).

(** ** The properties, in the words of the specification *)

(** [a == b] within the relative tolerance [rtol]. *)
Definition rel_close (rtol : Q) (a b : float) : Prop :=
  match a, b with
  | Fin qa, Fin qb => (Qabs (qa - qb) <= rtol * Qabs qb)%Q
  | _, _ => False
  end.

(** Every conserved quantity of [x] equals that of [init_concs] within
    1e-10. *)
Definition conserved (sys : EqSystem) (init_concs x : list float) : Prop :=
  exists keys m1 m2,
    composition_conservation sys x init_concs = Ok (keys, m1, m2) /\
    Forall2 (rel_close (1 # 10000000000)) m1 m2.

Definition sane_implies_conserved (sys : EqSystem)
    (init_concs x : list float) : Prop :=
  (exists ws, _result_is_sane sys init_concs x = Ok (true, ws)) ->
  conserved sys init_concs x.

Definition has_negative (x : list float) : Prop :=
  exists xi, In xi x /\ flt xi zero.

Definition exceeds_bound (ub x : list float) : Prop :=
  exists i xi bi,
    nth_error x i = Some xi /\ nth_error ub i = Some bi /\
    flt (bi * sane_tol)%float xi.

(** The forward test on the quotient [q] of the dissolved projection. *)
Definition undersaturated (s : Z) (q k rtol : float) : Prop :=
  ((s > 0)%Z /\ flt (q * (one + rtol))%float k) \/
  ((s < 0)%Z /\ flt (k * (one + rtol))%float q).

(** Forward and backward condition are not both true at [x]. *)
Definition conditions_exclusive (sys : EqSystem) (ri : nat)
    (rtol : option float) (small : float) (x p : list float) : Prop :=
  forall fw bw,
    _fw_cond_factory sys ri rtol = Ok fw ->
    _bw_cond_factory sys ri small = Ok bw ->
    ~ (fw x p = Ok true /\ bw x p = Ok true).

(** The reactions are well formed for a vector of [n] concentrations: the
    precipitate of a precipitation reaction is a species of the vector and
    its coefficient is the nonzero entry of the net stoichiometry there. *)
Definition precipitation_wf (n : nat) (r : Equilibrium) : Prop :=
  has_precipitates r = true ->
  length (net_stoich r) = n /\
  s_stoich r <> 0%Z /\
  nth_error (net_stoich r) (s_idx r) = Some (s_stoich r).

(** Each precipitating species occurs in exactly one precipitation
    reaction. *)
Definition one_reaction_per_precipitate (rs : list Equilibrium) : Prop :=
  forall i j ri rj,
    nth_error rs i = Some ri -> nth_error rs j = Some rj -> i <> j ->
    has_precipitates ri = true -> has_precipitates rj = true ->
    nth_error (net_stoich rj) (s_idx ri) = Some 0%Z.

(** Species [i] is not touched by a precipitation reaction. *)
Definition untouched (rs : list Equilibrium) (i : nat) : Prop :=
  forall r, In r rs -> has_precipitates r = true ->
            nth_error (net_stoich r) i = Some 0%Z.

Definition all_finite (x : list float) : Prop :=
  Forall (fun v => is_finite v = true) x.

(** ** The example system of the specification

    Species A, B, C, D (D solid); [A + B = C] with [K = 1e-5] and the
    precipitation [C = D(s)] with [K = 1e-2]. *)

Definition example_substances : list Substance :=
  [ {| composition := [(1, 1)]%Z; phase_idx := 0 |};
    {| composition := [(2, 1)]%Z; phase_idx := 0 |};
    {| composition := [(1, 1); (2, 1)]%Z; phase_idx := 0 |};
    {| composition := [(1, 1); (2, 1)]%Z; phase_idx := 1 |} ].

Definition example_rxn1 : Equilibrium :=
  {| param := Fin (1 # 100000);
     has_precipitates := false;
     net_stoich := [-1; -1; 1; 0]%Z;
     precipitate_stoich := ([0; 0; 0; 0]%Z, 0%Z, 0%nat);
     rxn_Q := fun concs => equilibrium_quotient concs [-1; -1; 1; 0]%Z;
     rxn_K := Fin (1 # 100000) |}.

Definition example_rxn2 : Equilibrium :=
  {| param := Fin (1 # 100);
     has_precipitates := true;
     net_stoich := [0; 0; -1; 1]%Z;
     precipitate_stoich := ([0; 0; 0; 1]%Z, 1%Z, 3%nat);
     rxn_Q := fun concs => equilibrium_quotient concs [0; 0; -1; 0]%Z;
     rxn_K := Fin (1 # 100) |}.

Definition example_sys : EqSystem :=
  {| substances := example_substances;
     rxns := [example_rxn1; example_rxn2] |}.

(** [NumSysSquare.small] *)
Definition small_square : float :=
  Fin (1 # 100000000000000000000000000000000000).

(* ===================================================================== *)
(** * Real numbers: the second number type *)
(* ===================================================================== *)

Module RealNum.

Local Open Scope R_scope.

Definition Rltb (x y : R) : bool := if Rlt_dec x y then true else false.

(** A quotient with a zero divisor is not a real number ([inf] or [nan] in
    numpy). *)
Definition R_div (x y : R) : result R :=
  if Req_dec_T y 0 then Raise FloatingPointError else Ok (x / y).

#[export] Instance R_Num : Num R := {|
  n_zero := 0;
  n_of_Z := IZR;
  n_add := Rplus;
  n_sub := Rminus;
  n_mul := Rmult;
  n_neg := Ropp;
  n_div := R_div;
  n_ltb := Rltb
|}.

(** [np.log]: [-inf] at zero and [nan] below are not real numbers. *)
Definition np_log (x : R) : result R :=
  if Rlt_dec 0 x then Ok (ln x) else Raise FloatingPointError.

(** The inverse hyperbolic tangent on the open interval (-1, 1). *)
Definition arctanh (u : R) : R := ln ((1 + u) / (1 - u)) / 2.

(** [np.arctanh]: infinite at [-1] and [1], [nan] outside. *)
Definition np_arctanh (u : R) : result R :=
  if Rlt_dec (Rabs u) 1 then Ok (arctanh u) else Raise FloatingPointError.

End RealNum.

Export RealNum.

(** The [backend] of a [_NumSys]: the module that provides [log] and [exp]
    ([numpy], [sympy], [math]). *)
Class Backend (T : Type) `{Num T} : Type := {
  b_log : T -> result T;
  b_exp : T -> T
}.

#[export] Instance R_Backend : Backend R := {|
  b_log := np_log;
  b_exp := exp
|}.

(* ===================================================================== *)
(** * Linear algebra helpers *)
(* ===================================================================== *)

Section LinearAlgebra.

Context {T : Type} `{Num T}.

(** Modelled from the spec: [vec_dot_vec] and [mat_dot_vec] come from
    [chempy/_util.py], which is not among the sources.  The specification
    writes the residuals they build as a matrix-vector product, [B·x0], to
    which a vector of terms is added when one is given, [A·y + terms]. *)
Definition vec_dot_vec (vec1 vec2 : list T) : T :=
  fold_left n_add (map (fun p => n_mul (fst p) (snd p)) (pyzip vec1 vec2))
            n_zero.

Definition mat_dot_vec (iter_mat : list (list T)) (iter_vec : list T)
    (iter_term : option (list T)) : list T :=
  match iter_term with
  | None => map (fun row => vec_dot_vec row iter_vec) iter_mat
  | Some terms =>
      map (fun rt => n_add (vec_dot_vec (fst rt) iter_vec) (snd rt))
          (pyzip iter_mat terms)
  end.

Definition matrix_of_Z (M : list (list Z)) : list (list T) :=
  map (map n_of_Z) M.

(** [pyneqsys.symbolic.linear_rref], the external row reduction of the
    augmented system [(A | b)]. *)
Variable linear_rref : list (list T) -> list T -> list (list T) * list T.

(** Modelled from the spec: [linear_exprs] belongs to the external package
    [pyneqsys]; the specification describes what it returns as the linear
    balance [A·x - b], on the row-reduced system when [rref] is set. *)
Definition linear_exprs (A : list (list T)) (x b : list T) (rref : bool)
  : list T :=
  let (rA, rb) := if rref then linear_rref A b else (A, b) in
  map (fun lr => n_sub (vec_dot_vec (fst lr) x) (snd lr)) (pyzip rA rb).

End LinearAlgebra.

(* ===================================================================== *)
(** * The variable transforms *)
(* ===================================================================== *)

(** [EqSystem.phase_transfer_reaction_idxs] *)
Fixpoint phase_transfer_from (idx : nat) (rs : list Equilibrium) : list nat :=
  match rs with
  | [] => []
  | rxn :: rest =>
      if has_precipitates rxn then idx :: phase_transfer_from (S idx) rest
      else phase_transfer_from (S idx) rest
  end.

Definition phase_transfer_reaction_idxs (sys : EqSystem) : list nat :=
  phase_transfer_from 0 (rxns sys).

(** [EqSystem.non_precip_rids] *)
Definition non_precip_rids (sys : EqSystem) (precipitates : list bool)
  : list nat :=
  map fst (filter (fun ip => negb (snd ip))
                  (pyzip (phase_transfer_reaction_idxs sys) precipitates)).

(** The attributes of a [_NumSys] instance. *)
Record NumSys : Type := {
  eqsys : EqSystem;
  rref_equil : bool;
  rref_preserv : bool;
  precipitates : list bool
}.

Section NumSysGeneric.

Context {T : Type} `{Backend T}.

(** [ReactionSystem.stoichs], from [chempy/chemistry.py]: the stoichiometry
    matrix, given the reactions whose solid phase is absent. *)
Variable stoichs : EqSystem -> list nat -> list (list Z).

Variable linear_rref : list (list T) -> list T -> list (list T) * list T.

(** [EqSystem.stoichs_constants] *)
Definition stoichs_constants (sys : EqSystem) (eq_params : list T)
    (rref : bool) (non_precip_rids : list nat)
  : result (list (list T) * list T) :=
  if rref then
    logs <- mapM b_log eq_params ;;
    let (rA, rb) := linear_rref (matrix_of_Z (stoichs sys non_precip_rids))
                                logs in
    Ok (rA, map b_exp rb)
  else Ok (matrix_of_Z (stoichs sys non_precip_rids), eq_params).

(** [_NumSys._get_A_ks] *)
Definition _get_A_ks (self : NumSys) (small : T) (eq_params : list T)
  : result (list (list T) * list T) :=
  let rids := non_precip_rids (eqsys self) (precipitates self) in
  stoichs_constants (eqsys self)
    (eq_constants_from 0 rids eq_params small)
    (rref_equil self) rids.

(** [_NumSys._inits_and_eq_params] *)
Definition _inits_and_eq_params (self : NumSys) (params : list T)
  : list T * list T :=
  (firstn (ns (eqsys self)) params, skipn (ns (eqsys self)) params).

End NumSysGeneric.

Module NumSysLog.

Section F.

Context {T : Type} `{Backend T}.
Variable stoichs : EqSystem -> list nat -> list (list Z).
Variable linear_rref : list (list T) -> list T -> list (list T) * list T.

(** [small = math.exp(-80)] *)
Definition small : T := b_exp (n_neg (n_of_Z 80)).

Definition f (self : NumSys) (yvec params : list T) : result (list T) :=
  let (init_concs, eq_params) := _inits_and_eq_params self params in
  Aks <- _get_A_ks stoichs linear_rref self small eq_params ;;
  let (A, ks) := Aks in
  terms <- mapM (fun k => l <- b_log k ;; Ok (n_neg l)) ks ;;
  let f_equil := mat_dot_vec A yvec (Some terms) in
  let (B, comp_nrs) := composition_balance_vectors (eqsys self) in
  let f_preserv :=
    linear_exprs linear_rref (matrix_of_Z B) (map b_exp yvec)
      (mat_dot_vec (matrix_of_Z B) init_concs None) (rref_preserv self) in
  Ok (f_equil ++ f_preserv).

End F.

Local Open Scope R_scope.

(** [np.log(np.asarray(x) + NumSysLog.small)] *)
Definition pre_processor (self : NumSys) (x params : list R)
  : result (list R * list R) :=
  y <- mapM (fun v => np_log (v + small)) x ;;
  Ok (y, params).

Definition post_processor (self : NumSys) (x params : list R)
  : result (list R * list R) :=
  Ok (map exp x, params).

End NumSysLog.

(** Elementwise operation that may raise. *)
Definition zip_withM {A B C} (f : A -> B -> result C) (xs : list A)
    (ys : list B) : result (list C) :=
  l <- zip_with f xs ys ;; mapM (fun r => r) l.

Module NumSysLinRel.

Local Open Scope R_scope.

(** [small = 0], inherited from [_NumSys]. *)
Definition small : R := 0.

Definition max_concs (self : NumSys) (params : list R) : result (list R) :=
  let init_concs := firstn (ns (eqsys self)) params in
  upper_conc_bounds (eqsys self) init_concs py_min.

Definition pre_processor (self : NumSys) (x params : list R)
  : result (list R * list R) :=
  m <- max_concs self params ;;
  y <- zip_withM R_div x m ;;
  Ok (y, params).

Definition post_processor (self : NumSys) (x params : list R)
  : result (list R * list R) :=
  m <- max_concs self params ;;
  y <- zip_with Rmult x m ;;
  Ok (y, params).

End NumSysLinRel.

Module NumSysSquare.

Local Open Scope R_scope.

(** [small = 1e-35] *)
Definition small : R := / 10 ^ 35.

Definition pre_processor (self : NumSys) (x params : list R)
  : result (list R * list R) :=
  Ok (map (fun v => sqrt (Rabs v)) x, params).

Definition post_processor (self : NumSys) (x params : list R)
  : result (list R * list R) :=
  Ok (map (fun v => v ^ 2) x, params).

End NumSysSquare.

Module NumSysLinTanh.

Local Open Scope R_scope.

(** [small = 0], inherited from [_NumSys]. *)
Definition small : R := 0.

Definition pre_processor (self : NumSys) (x params : list R)
  : result (list R * list R) :=
  ymax <- upper_conc_bounds (eqsys self) (firstn (ns (eqsys self)) params)
            py_min ;;
  y <- zip_withM (fun xi ym => q <- R_div (8 * xi) ym ;;
                               np_arctanh ((q - 4) / 5)) x ymax ;;
  Ok (y, params).

Definition post_processor (self : NumSys) (x params : list R)
  : result (list R * list R) :=
  ymax <- upper_conc_bounds (eqsys self) (firstn (ns (eqsys self)) params)
            py_min ;;
  y <- zip_with (fun xi ym => ym * (4 + 5 * tanh xi) / 8) x ymax ;;
  Ok (y, params).

End NumSysLinTanh.

(** ** The properties of the transforms, in the words of the specification *)

(** The equilibrium rows of [NumSysLog.f] as the specification writes them:
    row [i] is [(A·y)_i + log(k_i)]. *)
Definition equil_rows_plus_log {T : Type} `{Backend T}
    (stoichs : EqSystem -> list nat -> list (list Z))
    (linear_rref : list (list T) -> list T -> list (list T) * list T)
    (self : NumSys) (y params : list T) : Prop :=
  forall A ks res,
    _get_A_ks stoichs linear_rref self NumSysLog.small
      (snd (_inits_and_eq_params self params)) = Ok (A, ks) ->
    NumSysLog.f stoichs linear_rref self y params = Ok res ->
    forall i row k l,
      nth_error A i = Some row -> nth_error ks i = Some k ->
      b_log k = Ok l ->
      nth_error res i = Some (n_add (vec_dot_vec row y) l).

(** [post_process(pre_process(x)) == x], the parameters passing through, for
    a vector whose entries exceed the floor [small]. *)
Definition round_trips
    (pre post : list R -> list R -> result (list R * list R))
    (small : R) (x params : list R) : Prop :=
  Forall (fun v => (small < v)%R) x ->
  exists y p, pre x params = Ok (y, p) /\ post y p = Ok (x, params).

(** ** A system without precipitation, for the transforms

    Species A and B of one element, [A = B] with [K = 2]. *)

(** Modelled from the spec: [ReactionSystem.stoichs] is in
    [chempy/chemistry.py], which is not among the sources.  The
    specification describes the stoichiometric matrix as holding, for each
    reaction, its per-species coefficients; the definition serves the
    examples, whose system has no precipitation reaction. *)
Definition stoichs_plain (sys : EqSystem) (rids : list nat) : list (list Z) :=
  map net_stoich (rxns sys).

(** The row reduction is not asked for in the examples. *)
Definition no_rref {T} (A : list (list T)) (b : list T)
  : list (list T) * list T := (A, b).

Definition log_example_sys : EqSystem :=
  {| substances :=
       [ {| composition := [(1, 1)]%Z; phase_idx := 0 |};
         {| composition := [(1, 1)]%Z; phase_idx := 0 |} ];
     rxns :=
       [ {| param := Fin 2;
            has_precipitates := false;
            net_stoich := [-1; 1]%Z;
            precipitate_stoich := ([0; 0]%Z, 0%Z, 0%nat);
            rxn_Q := fun concs => equilibrium_quotient concs [-1; 1]%Z;
            rxn_K := Fin 2 |} ] |}.

Definition log_example : NumSys :=
  {| eqsys := log_example_sys;
     rref_equil := false;
     rref_preserv := false;
     precipitates := [] |}.

(* ===================================================================== *)
(** * Further definitions *)
(* ===================================================================== *)

(** ** Vectors of finite numbers *)

(** Every entry is a finite, non-negative number. *)
Definition all_nonneg (x : list float) : Prop :=
  Forall (fun v => exists q, v = Fin q /\ (0 <= q)%Q) x.

Definition f_nonneg (x : float) : Prop := exists q, x = Fin q /\ (0 <= q)%Q.

(** ** Compositions *)

(** The entries of a composition other than the charge. *)
Definition non_charge (s : Substance) : list (Z * Z) :=
  filter (fun item => negb (Z.eqb (fst item) 0)) (composition s).

(** Every non-charge coefficient of the substance is positive. *)
Definition positive_coefficients (s : Substance) : Prop :=
  Forall (fun item => (0 < snd item)%Z) (non_charge s).

(** ** [composition_balance], for a one-dimensional [concs] *)

Definition composition_balance (substances : list Substance)
    (concs : list float) (composition_number : Z) : float :=
  fold_left (fun res sc =>
               (res + of_Z (comp_get (fst sc) composition_number)
                      * snd sc)%float)
            (pyzip substances concs) zero.

(** The same sum on the rationals of a finite vector, from [a]. *)
Definition balance_Q (substances : list Substance) (qs : list Q) (k : Z)
    (a : Q) : Q :=
  fold_left (fun res sq => (res + inject_Z (comp_get (fst sq) k) * snd sq)%Q)
            (pyzip substances qs) a.

Module NumSysLin.

Section F.

Local Open Scope R_scope.

Variable stoichs : EqSystem -> list nat -> list (list Z).
Variable linear_rref : list (list R) -> list R -> list (list R) * list R.

(** [prodpow] of [chempy/_util.py], which is not among the sources. *)
Variable prodpow : list R -> list (list R) -> list R.

(** [small = 0], inherited from [_NumSys]. *)
Definition small : R := 0.

(** [NumSysLin.f].  [self_small] is [self.small], an attribute of the class
    of [self]: the subclasses that call this method pass their own. *)
Definition f (self_small : R) (self : NumSys) (yvec params : list R)
  : result (list R) :=
  let (init_concs, eq_params) := _inits_and_eq_params self params in
  Aks <- _get_A_ks stoichs linear_rref self self_small eq_params ;;
  let (A, ks) := Aks in
  let f_equil :=
    map (fun qk => if Req_dec_T (snd qk) 0 then fst qk
                   else fst qk / snd qk - 1)
        (pyzip (prodpow yvec A) ks) in
  let (B, comp_nrs) := composition_balance_vectors (eqsys self) in
  let f_preserv :=
    linear_exprs linear_rref (matrix_of_Z B) yvec
      (mat_dot_vec (matrix_of_Z B) init_concs None) (rref_preserv self) in
  Ok (f_equil ++ f_preserv).

End F.

End NumSysLin.

(** Modelled from the spec: the specification describes the reaction
    quotient of the linear residuals as the product of the variables raised
    to their stoichiometric powers.  The definition gives that product for
    positive bases, where [b**e] is [exp(e*log(b))]. *)
Definition prodpow_positive (bases : list R) (exponents : list (list R))
  : list R :=
  map (fun row =>
         fold_left Rmult
           (map (fun be => Rpower (fst be) (snd be)) (pyzip bases row)) 1%R)
      exponents.

(** A [prodpow] that is the product of powers on positive bases. *)
Definition prodpow_on_positive
    (prodpow : list R -> list (list R) -> list R) : Prop :=
  forall c A, Forall (fun v => (0 < v)%R) c ->
              prodpow c A = prodpow_positive c A.

(** The residual vectors [r1] and [r2] vanish in the same rows. *)
Definition same_zero_rows (r1 r2 : list R) : Prop :=
  Forall2 (fun a b => a = 0%R <-> b = 0%R) r1 r2.

(** The keys of a composition are those of a Python dict: no key occurs
    twice. *)
Definition unique_keys (s : Substance) : Prop :=
  NoDup (map fst (composition s)).

(** [composition.get(k, 0)] on the items of a composition. *)
Definition coeff_of (items : list (Z * Z)) (k : Z) : Z :=
  match find (fun item => Z.eqb (fst item) k) items with
  | Some item => snd item
  | None => 0%Z
  end.

(** The number of phase-transfer reactions before reaction [i]: the place
    of reaction [i] in [phase_transfer_reaction_idxs] and so in the flags
    [precipitates]. *)
Definition precip_rank (rs : list Equilibrium) (i : nat) : nat :=
  length (filter has_precipitates (firstn i rs)).

(** Reaction [i] is a phase-transfer reaction whose flag says that its solid
    is absent. *)
Definition solid_absent (sys : EqSystem) (precipitates : list bool)
    (i : nat) : bool :=
  match nth_error (rxns sys) i with
  | Some r =>
      has_precipitates r &&
      match nth_error precipitates (precip_rank (rxns sys) i) with
      | Some p => negb p
      | None => false
      end
  | None => false
  end.

(** [get_neqsys_static_conditions]: the flags used when [precipitates] is
    [None], [(False,)*len(self.phase_transfer_reaction_idxs())]. *)
Definition default_precipitates (sys : EqSystem) : list bool :=
  repeat false (length (phase_transfer_reaction_idxs sys)).

(** Two computations end alike: both raise the same exception, or both
    return, with related values. *)
Definition same_outcome {A} (R : A -> A -> Prop) (r r' : result A) : Prop :=
  match r, r' with
  | Ok a, Ok a' => R a a'
  | Raise e, Raise e' => e = e'
  | _, _ => False
  end.

(** The condition callbacks of [get_neqsys_conditional_chained] and of
    [get_neqsys_chained_conditional]:
    [[(self._fw_cond_factory(ri), self._bw_cond_factory(ri, small))
      for ri in self.phase_transfer_reaction_idxs()]]. *)
Definition cond_cbs (sys : EqSystem) (small : float)
  : result (list ((list float -> list float -> result bool) *
                  (list float -> list float -> result bool))) :=
  mapM (fun ri => fw <- _fw_cond_factory sys ri None ;;
                  bw <- _bw_cond_factory sys ri small ;;
                  Ok (fw, bw))
       (phase_transfer_reaction_idxs sys).

(* ===================================================================== *)
(** * The root finder and its contract *)
(* ===================================================================== *)

(** The contract of a bracketing root finder: a value that it returns lies
    in the bracket it was given and is a zero of the function. *)
Definition brentq_contract
    (brentq : (float -> result float) -> float -> float -> result float)
  : Prop :=
  forall f a b r,
    brentq f a b = Ok r ->
    fle a r /\ fle r b /\ exists z, f r = Ok z /\ feq z zero.

(** [x <= y], false as soon as an operand is [nan]. *)
Definition fleb (x y : float) : bool :=
  negb (is_nan x) && negb (is_nan y) && negb (y <? x)%float.

(** A root finder that meets the contract on every input: the bisection,
    which answers only when its candidate is a zero inside the bracket. *)
Definition bisect_checked (f : float -> result float) (lo hi : float)
  : result float :=
  r <- bisect f lo hi ;;
  z <- f r ;;
  if is_zero z && fleb lo r && fleb r hi then Ok r
  else Raise (ValueError "no zero was found").

(* ===================================================================== *)
(** * The sanity check, in the words of the specification *)
(* ===================================================================== *)

(** A candidate with a negative entry is flagged: [_result_is_sane] returns
    [False]. *)
Definition negative_is_flagged (sys : EqSystem) (init_concs x : list float)
  : Prop :=
  has_negative x ->
  exists ws, _result_is_sane sys init_concs x = Ok (false, ws).

(** A redox couple, [Fe3+ + e- = Fe2+]: iron is component [26], the
    electron carries charge only. *)
Definition redox_sys : EqSystem :=
  {| substances :=
       [ {| composition := [(0, 3); (26, 1)]%Z; phase_idx := 0 |};
         {| composition := [(0, -1)]%Z; phase_idx := 0 |};
         {| composition := [(0, 2); (26, 1)]%Z; phase_idx := 0 |} ];
     rxns :=
       [ {| param := Fin 10;
            has_precipitates := false;
            net_stoich := [-1; -1; 1]%Z;
            precipitate_stoich := ([0; 0; 0]%Z, 0%Z, 0%nat);
            rxn_Q := fun concs => equilibrium_quotient concs [-1; -1; 1]%Z;
            rxn_K := Fin 10 |} ] |}.

(* ===================================================================== *)
(** * Double precision *)
(* ===================================================================== *)

(** IEEE 754 binary64, the numbers of a numpy [float64] array. *)
Module B64.

Definition prec : Z := 53.
Definition emax : Z := 1024.

(** The conversion of an integer, as numpy does for an integer operand. *)
Definition of_Z (z : Z) : spec_float := binary_normalize prec emax z 0 false.

Definition sub : spec_float -> spec_float -> spec_float := SFsub prec emax.
Definition mul : spec_float -> spec_float -> spec_float := SFmul prec emax.
Definition div : spec_float -> spec_float -> spec_float := SFdiv prec emax.

(** [x == 0.0] *)
Definition is_zero (x : spec_float) : bool := SFeqb x (of_Z 0).

End B64.

(** ** [EqSystem.dissolved] in double precision *)

Definition dissolved_step64 (new_concs : list spec_float) (r : Equilibrium)
  : result (list spec_float) :=
  if has_precipitates r then
    c <- getitem new_concs (s_idx r) ;;
    let factor := B64.div c (B64.of_Z (s_stoich r)) in
    zip_with B64.sub new_concs
             (map (fun n => B64.mul factor (B64.of_Z n)) (net_stoich r))
  else Ok new_concs.

Fixpoint dissolved_loop64 (rs : list Equilibrium)
    (new_concs : list spec_float) : result (list spec_float) :=
  match rs with
  | [] => Ok new_concs
  | r :: rest => n <- dissolved_step64 new_concs r ;; dissolved_loop64 rest n
  end.

Definition dissolved64 (sys : EqSystem) (concs : list spec_float)
  : result (list spec_float) :=
  dissolved_loop64 (rxns sys) concs.

(** The property as the specification words it: where each precipitating
    species occurs in exactly one precipitation reaction, [dissolved]
    assigns concentration exactly zero to the precipitate of every
    precipitation reaction. *)
Definition empties_solids64 (sys : EqSystem) (x : list spec_float) : Prop :=
  one_reaction_per_precipitate (rxns sys) ->
  exists d,
    dissolved64 sys x = Ok d /\
    forall r, In r (rxns sys) -> has_precipitates r = true ->
              exists v, nth_error d (s_idx r) = Some v /\
                        B64.is_zero v = true.

(** A heptamer [A7] in solution and its solid monomer, [A7 = 7 A(s)]. *)
Definition heptamer_sys : EqSystem :=
  {| substances :=
       [ {| composition := [(1, 7)]%Z; phase_idx := 0 |};
         {| composition := [(1, 1)]%Z; phase_idx := 1 |} ];
     rxns :=
       [ {| param := Fin 1;
            has_precipitates := true;
            net_stoich := [-1; 7]%Z;
            precipitate_stoich := ([0; 7]%Z, 7%Z, 1%nat);
            rxn_Q := fun concs => equilibrium_quotient concs [-1; 0]%Z;
            rxn_K := Fin 1 |} ] |}.
(* ===================================================================== *)
(** * Facts about exceptions *)
(* ===================================================================== *)

Lemma bind_Ok {A B} (a : A) (k : A -> result B) : bind (Ok a) k = k a.
Proof. reflexivity. Qed.

Lemma bind_Ok_inv {A B} (m : result A) (k : A -> result B) (b : B) :
  bind m k = Ok b -> exists a, m = Ok a /\ k a = Ok b.
Proof.
  destruct m as [a|e]; simpl; intros H; [exists a; auto | discriminate].
Qed.

(* ===================================================================== *)
(** * Facts about the float model *)
(* ===================================================================== *)

Section FloatFacts.

Local Open Scope Q_scope.

Lemma Qsgn_Lt q : Qsgn q = Lt <-> q < 0.
Proof. unfold Qsgn. symmetry. apply Qlt_alt. Qed.

Lemma Qsgn_Gt q : Qsgn q = Gt <-> 0 < q.
Proof. unfold Qsgn. symmetry. apply Qgt_alt. Qed.

Lemma Qsgn_Eq q : Qsgn q = Eq <-> q == 0.
Proof. unfold Qsgn. symmetry. apply Qeq_alt. Qed.

Lemma fltb_flt x y : fltb x y = true <-> flt x y.
Proof.
  destruct x as [a| | |], y as [b| | |]; simpl;
    try (split; [discriminate | tauto]); try tauto.
  rewrite Qlt_alt. destruct (a ?= b); split; congruence.
Qed.

Lemma fltb_false_fle x y :
  is_nan x = false -> is_nan y = false -> fltb x y = false -> fle y x.
Proof.
  destruct x as [a| | |], y as [b| | |]; simpl; try discriminate; auto.
  intros _ _ H. destruct (a ?= b) eqn:E; try discriminate.
  - apply Qeq_alt in E. lra.
  - apply Qgt_alt in E. lra.
Qed.

Lemma flt_fle x y : flt x y -> fle x y.
Proof.
  destruct x as [a| | |], y as [b| | |]; simpl; try tauto. lra.
Qed.

Lemma fle_refl x : is_nan x = false -> fle x x.
Proof. destruct x; simpl; try discriminate; auto. lra. Qed.

Lemma fle_trans x y z : fle x y -> fle y z -> fle x z.
Proof.
  destruct x as [a| | |], y as [b| | |], z as [c| | |]; simpl; try tauto. lra.
Qed.

Lemma flt_not_nan_l x y : flt x y -> is_nan x = false.
Proof. destruct x, y; simpl; tauto || reflexivity. Qed.

Lemma flt_zero_fneg x : flt x zero -> flt zero (fneg x).
Proof. destruct x as [a| | |]; simpl; try tauto. lra. Qed.

Lemma flt_zero_fneg' x : flt zero x -> flt (fneg x) zero.
Proof. destruct x as [a| | |]; simpl; try tauto. lra. Qed.

Lemma flt_not_feq x y : flt x y -> ~ feq x y.
Proof.
  destruct x as [a| | |], y as [b| | |]; simpl; try tauto. lra.
Qed.

Lemma feq_sym x y : feq x y -> feq y x.
Proof.
  destruct x as [a| | |], y as [b| | |]; simpl; try tauto. lra.
Qed.

Lemma feq_refl x : feq x x.
Proof. destruct x; simpl; auto. reflexivity. Qed.

Lemma feq_trans x y z : feq x y -> feq y z -> feq x z.
Proof.
  destruct x as [a| | |], y as [b| | |], z as [c| | |]; simpl; try tauto. lra.
Qed.

(** Division of a finite number by a nonzero integer is the rational
    quotient. *)
Lemma fdiv_of_Z_nonzero q s :
  s <> 0%Z -> fdiv (Fin q) (of_Z s) = Fin (q / inject_Z s).
Proof.
  intros Hs. unfold fdiv, of_Z.
  destruct (Qsgn (inject_Z s)) eqn:E; auto.
  apply Qsgn_Eq in E. exfalso. apply Hs.
  unfold Qeq, inject_Z in E. simpl in E. lia.
Qed.

Lemma fmax_cases x y : fmax x y = x \/ fmax x y = y.
Proof. unfold fmax. destruct (is_nan x), (is_nan y), (fltb x y); auto. Qed.

Lemma fmin_cases x y : fmin x y = x \/ fmin x y = y.
Proof. unfold fmin. destruct (is_nan x), (is_nan y), (fltb y x); auto. Qed.

Lemma fmax_ub x y :
  is_nan x = false -> is_nan y = false ->
  fle x (fmax x y) /\ fle y (fmax x y).
Proof.
  intros Hx Hy. unfold fmax. rewrite Hx, Hy.
  destruct (fltb x y) eqn:E.
  - split; [apply flt_fle, fltb_flt, E | apply fle_refl, Hy].
  - split; [apply fle_refl, Hx | apply fltb_false_fle; auto].
Qed.

Lemma fmin_lb x y :
  is_nan x = false -> is_nan y = false ->
  fle (fmin x y) x /\ fle (fmin x y) y.
Proof.
  intros Hx Hy. unfold fmin. rewrite Hx, Hy.
  destruct (fltb y x) eqn:E.
  - split; [apply flt_fle, fltb_flt, E | apply fle_refl, Hy].
  - split; [apply fle_refl, Hx | apply fltb_false_fle; auto].
Qed.

End FloatFacts.

(** The running maximum of [np.max] is an element of the array and an upper
    bound of it, provided no element is [nan]. *)
Lemma fold_fmax_spec (r : list float) (x : float) :
  Forall (fun y => is_nan y = false) (x :: r) ->
  In (fold_left fmax r x) (x :: r) /\
  Forall (fun y => fle y (fold_left fmax r x)) (x :: r).
Proof.
  revert x. induction r as [|y r IH]; intros x H.
  - simpl. split; [auto|]. constructor; [|constructor].
    apply fle_refl. now inversion H.
  - inversion H as [|? ? Hx Hr]; subst. inversion Hr as [|? ? Hy Hr']; subst.
    assert (Hm : is_nan (fmax x y) = false)
      by (destruct (fmax_cases x y) as [->| ->]; assumption).
    destruct (IH (fmax x y)) as [Hin Hall]; [constructor; assumption|].
    simpl fold_left. split.
    + destruct Hin as [Hin|Hin].
      * rewrite <- Hin. destruct (fmax_cases x y) as [->| ->]; simpl; auto.
      * right; right; exact Hin.
    + inversion Hall as [|? ? Hxy Hrest]; subst.
      destruct (fmax_ub x y Hx Hy) as [H1 H2].
      constructor; [eapply fle_trans; eauto|].
      constructor; [eapply fle_trans; eauto|]. exact Hrest.
Qed.

Lemma fold_fmin_spec (r : list float) (x : float) :
  Forall (fun y => is_nan y = false) (x :: r) ->
  In (fold_left fmin r x) (x :: r) /\
  Forall (fun y => fle (fold_left fmin r x) y) (x :: r).
Proof.
  revert x. induction r as [|y r IH]; intros x H.
  - simpl. split; [auto|]. constructor; [|constructor].
    apply fle_refl. now inversion H.
  - inversion H as [|? ? Hx Hr]; subst. inversion Hr as [|? ? Hy Hr']; subst.
    assert (Hm : is_nan (fmin x y) = false)
      by (destruct (fmin_cases x y) as [->| ->]; assumption).
    destruct (IH (fmin x y)) as [Hin Hall]; [constructor; assumption|].
    simpl fold_left. split.
    + destruct Hin as [Hin|Hin].
      * rewrite <- Hin. destruct (fmin_cases x y) as [->| ->]; simpl; auto.
      * right; right; exact Hin.
    + inversion Hall as [|? ? Hxy Hrest]; subst.
      destruct (fmin_lb x y Hx Hy) as [H1 H2].
      constructor; [eapply fle_trans; eauto|].
      constructor; [eapply fle_trans; eauto|]. exact Hrest.
Qed.

(* ===================================================================== *)
(** * Facts about arrays *)
(* ===================================================================== *)

Section ArrayFacts.

Context {A B C : Type}.
Variable f : A -> B -> C.

Lemma zip_with_length xs ys r :
  zip_with f xs ys = Ok r -> length xs = length ys /\ length r = length xs.
Proof.
  revert ys r. induction xs as [|x xs IH]; intros [|y ys] r; simpl;
    try discriminate.
  - intros H; inversion H; auto.
  - destruct (zip_with f xs ys) as [r'|e] eqn:E; try discriminate.
    intros H; inversion H; subst. destruct (IH _ _ E). simpl. lia.
Qed.

Lemma zip_with_Ok xs ys :
  length xs = length ys -> exists r, zip_with f xs ys = Ok r.
Proof.
  revert ys. induction xs as [|x xs IH]; intros [|y ys]; simpl;
    try discriminate.
  - eauto.
  - intros H. destruct (IH ys) as [r Hr]; [lia|]. rewrite Hr. eauto.
Qed.

Lemma zip_with_nth xs ys r i x y :
  zip_with f xs ys = Ok r ->
  nth_error xs i = Some x -> nth_error ys i = Some y ->
  nth_error r i = Some (f x y).
Proof.
  revert ys r i. induction xs as [|x' xs IH]; intros [|y' ys] r i; simpl;
    try discriminate.
  - destruct i; discriminate.
  - destruct (zip_with f xs ys) as [r'|e] eqn:E; try discriminate.
    intros H; inversion H; subst. destruct i as [|i]; simpl.
    + congruence.
    + eauto.
Qed.

Lemma zip_with_In xs ys r z :
  zip_with f xs ys = Ok r -> In z r ->
  exists i x y, nth_error xs i = Some x /\ nth_error ys i = Some y /\
                z = f x y.
Proof.
  revert ys r. induction xs as [|x' xs IH]; intros [|y' ys] r; simpl;
    try discriminate.
  - intros H; inversion H; subst. intros [].
  - destruct (zip_with f xs ys) as [r'|e] eqn:E; try discriminate.
    intros H; inversion H; subst. intros [Hz|Hz].
    + exists 0%nat, x', y'. auto.
    + destruct (IH _ _ E Hz) as (i & x & y & ? & ? & ?).
      exists (S i), x, y. auto.
Qed.

Lemma zip_with_Raise xs ys e :
  zip_with f xs ys = Raise e ->
  e = ValueError "operands could not be broadcast together".
Proof.
  revert ys. induction xs as [|x xs IH]; intros [|y ys]; simpl;
    try congruence.
  destruct (zip_with f xs ys) as [r'|e'] eqn:E; try discriminate.
  intros H; inversion H; subst. eauto.
Qed.

End ArrayFacts.

Lemma np_any_map {A} (p : A -> bool) (l : list A) :
  np_any (map p l) = true <-> exists x, In x l /\ p x = true.
Proof.
  unfold np_any. rewrite existsb_exists. split.
  - intros (b & Hin & Hb). apply in_map_iff in Hin.
    destruct Hin as (x & Hx & Hin). exists x. subst. auto.
  - intros (x & Hin & Hp). exists (p x). split; auto. now apply in_map.
Qed.

(* ===================================================================== *)
(** * The reaction-coordinate interval *)
(* ===================================================================== *)

Lemma Qsgn_inject_Z s : Qsgn (inject_Z s) = (s ?= 0)%Z.
Proof.
  unfold Qsgn, Qcompare, inject_Z. simpl. now rewrite Z.mul_1_r.
Qed.

Lemma fdiv_ratio c s : s <> 0%Z -> fdiv c (of_Z s) = ratio c s.
Proof.
  intros Hs. destruct c as [q| | |]; simpl; auto.
  - now apply fdiv_of_Z_nonzero.
  - rewrite Qsgn_inject_Z.
    destruct (Z.ltb_spec s 0), (Z.compare_spec s 0); simpl; auto; lia.
  - rewrite Qsgn_inject_Z.
    destruct (Z.ltb_spec s 0), (Z.compare_spec s 0); simpl; auto; lia.
Qed.

Lemma rc_limits_ratios stoich c0 limits :
  Forall (fun s => s <> 0%Z) stoich ->
  rc_limits stoich c0 = Ok limits -> ratios_of stoich c0 limits.
Proof.
  intros Hnz H. unfold rc_limits in H.
  destruct (zip_with_length _ _ _ _ H) as [Hl1 Hl2].
  rewrite length_map in Hl1. repeat split; auto.
  intros i c s Hc Hs.
  rewrite (zip_with_nth _ _ _ _ i _ _ H Hc (map_nth_error of_Z i stoich Hs)).
  f_equal. apply fdiv_ratio.
  rewrite Forall_forall in Hnz. apply Hnz. eapply nth_error_In; eauto.
Qed.

Lemma rc_upper_spec limits :
  exists u, rc_upper limits = Ok u /\
    ((u = Int0 /\ forall r, In r limits -> ~ flt r zero) \/
     (exists m, u = Flt (fneg m) /\ is_max_negative limits m)).
Proof.
  unfold rc_upper.
  destruct (np_any (map (fun l => (l <? zero)%float) limits)) eqn:E.
  - apply np_any_map in E. destruct E as (x & Hin & Hx).
    assert (Hf : In x (neg_limits limits))
      by (apply filter_In; auto).
    unfold np_max. destruct (neg_limits limits) as [|y r] eqn:En;
      [destruct Hf|].
    assert (Hall : Forall (fun z => is_nan z = false) (y :: r)).
    { apply Forall_forall. intros z Hz. rewrite <- En in Hz.
      apply filter_In in Hz. destruct Hz as [_ Hz].
      apply fltb_flt in Hz. eapply flt_not_nan_l; eauto. }
    destruct (fold_fmax_spec _ _ Hall) as [Hmin Hmub].
    simpl. eexists. split; [reflexivity|]. right.
    exists (fold_left fmax r y). split; [reflexivity|].
    rewrite <- En in Hmin. apply filter_In in Hmin.
    destruct Hmin as [Hmin Hmneg]. apply fltb_flt in Hmneg.
    repeat split; auto.
    intros z Hz Hzneg. rewrite Forall_forall in Hmub. apply Hmub.
    rewrite <- En. apply filter_In. split; auto. now apply fltb_flt.
  - exists Int0. split; [reflexivity|]. left. split; [reflexivity|].
    intros r Hr Hneg.
    assert (np_any (map (fun l => (l <? zero)%float) limits) = true).
    { apply np_any_map. exists r. split; auto. now apply fltb_flt. }
    congruence.
Qed.

Lemma rc_lower_spec limits :
  exists l, rc_lower limits = Ok l /\
    ((l = Int0 /\ forall r, In r limits -> ~ flt zero r) \/
     (exists m, l = Flt (fneg m) /\ is_min_positive limits m)).
Proof.
  unfold rc_lower.
  destruct (np_any (map (fun l => (l >? zero)%float) limits)) eqn:E.
  - apply np_any_map in E. destruct E as (x & Hin & Hx).
    assert (Hf : In x (pos_limits limits))
      by (apply filter_In; auto).
    unfold np_min. destruct (pos_limits limits) as [|y r] eqn:En;
      [destruct Hf|].
    assert (Hall : Forall (fun z => is_nan z = false) (y :: r)).
    { apply Forall_forall. intros z Hz. rewrite <- En in Hz.
      apply filter_In in Hz. destruct Hz as [_ Hz].
      apply fltb_flt in Hz. destruct z; simpl in *; tauto || reflexivity. }
    destruct (fold_fmin_spec _ _ Hall) as [Hmin Hmlb].
    simpl. eexists. split; [reflexivity|]. right.
    exists (fold_left fmin r y). split; [reflexivity|].
    rewrite <- En in Hmin. apply filter_In in Hmin.
    destruct Hmin as [Hmin Hmpos]. apply fltb_flt in Hmpos.
    repeat split; auto.
    intros z Hz Hzpos. rewrite Forall_forall in Hmlb. apply Hmlb.
    rewrite <- En. apply filter_In. split; auto. now apply fltb_flt.
  - exists Int0. split; [reflexivity|]. left. split; [reflexivity|].
    intros r Hr Hpos.
    assert (np_any (map (fun l => (l >? zero)%float) limits) = true).
    { apply np_any_map. exists r. split; auto. now apply fltb_flt. }
    congruence.
Qed.

(* ===================================================================== *)
(** * Arithmetic of the float model up to the value of rationals *)
(* ===================================================================== *)

Lemma Qsgn_compat a b : (a == b)%Q -> Qsgn a = Qsgn b.
Proof. intros H. unfold Qsgn. now rewrite H. Qed.

Lemma fneg_feq x x' : feq x x' -> feq (- x)%float (- x')%float.
Proof.
  destruct x as [a| | |], x' as [a'| | |]; simpl; try tauto. intros; lra.
Qed.

Lemma fadd_feq x x' y y' :
  feq x x' -> feq y y' -> feq (x + y)%float (x' + y')%float.
Proof.
  destruct x as [a| | |], x' as [a'| | |]; simpl; try tauto;
    destruct y as [b| | |], y' as [b'| | |]; simpl; try tauto.
  intros; lra.
Qed.

Lemma fsub_feq x x' y y' :
  feq x x' -> feq y y' -> feq (x - y)%float (x' - y')%float.
Proof. intros H1 H2. apply fadd_feq; auto. now apply fneg_feq. Qed.

Lemma fmul_feq x x' y y' :
  feq x x' -> feq y y' -> feq (x * y)%float (x' * y')%float.
Proof.
  destruct x as [a| | |], x' as [a'| | |]; simpl; try tauto;
    destruct y as [b| | |], y' as [b'| | |]; simpl; try tauto;
    intros H1 H2;
    try (rewrite (Qsgn_compat _ _ H1)); try (rewrite (Qsgn_compat _ _ H2));
    try apply feq_refl.
  now rewrite H1, H2.
Qed.

Lemma fmul_one_r x : feq (x * one)%float x.
Proof. destruct x as [a| | |]; simpl; auto. ring. Qed.

(* ===================================================================== *)
(** * The mask of the nonzero coefficients *)
(* ===================================================================== *)

Lemma getitem_app {A} (pre : list A) x xs :
  getitem (pre ++ x :: xs) (length pre) = Ok x.
Proof.
  unfold getitem. rewrite nth_error_app2 by lia.
  now rewrite Nat.sub_diag.
Qed.

Lemma take_nonzero_from {A} (stoich : list Z) :
  forall (xs pre : list A),
    length xs = length stoich ->
    take (pre ++ xs) (nonzero_from (length pre) stoich)
    = Ok (compress stoich xs).
Proof.
  induction stoich as [|s stoich IH]; intros [|x xs] pre Hlen;
    simpl in Hlen; try discriminate; simpl; auto.
  assert (IH' := IH xs (pre ++ [x])).
  rewrite <- app_assoc, length_app, Nat.add_1_r in IH'. simpl in IH'.
  destruct (Z.eqb s 0).
  - apply IH'. lia.
  - simpl. rewrite getitem_app, IH' by lia. reflexivity.
Qed.

Lemma take_np_nonzero {A} (stoich : list Z) (xs : list A) :
  length xs = length stoich ->
  take xs (np_nonzero stoich) = Ok (compress stoich xs).
Proof. intros H. apply (take_nonzero_from stoich xs [] H). Qed.

(** The coefficients that [_solve_equilibrium_coord] hands to
    [get_rc_interval] are nonzero. *)
Lemma compress_nonzero (stoich : list Z) :
  Forall (fun s => s <> 0%Z) (compress stoich stoich).
Proof.
  assert (G : forall (ss : list Z),
             Forall (fun s => s <> 0%Z) (compress ss ss)).
  { induction ss as [|s ss IH]; simpl; [constructor|].
    destruct (Z.eqb_spec s 0); auto. }
  apply G.
Qed.

Lemma conc_at_compress rc stoich :
  forall c0 c,
    conc_at rc c0 stoich = Ok c ->
    conc_at rc (compress stoich c0) (compress stoich stoich)
    = Ok (compress stoich c).
Proof.
  unfold conc_at.
  induction stoich as [|s stoich IH]; intros [|x c0] c; simpl;
    try discriminate.
  - intros H; inversion H; reflexivity.
  - destruct (zip_with fadd c0 _) as [r|e] eqn:E; try discriminate.
    intros H; inversion H; subst. specialize (IH _ _ E).
    destruct (Z.eqb s 0); simpl; [exact IH|]. rewrite IH. reflexivity.
Qed.

Lemma equilibrium_quotient_fold_feq l :
  forall t t', feq t t' ->
    feq (fold_left (fun tot nc => (tot * (snd nc) ** (fst nc))%float) l t)
        (fold_left (fun tot nc => (tot * (snd nc) ** (fst nc))%float) l t').
Proof.
  induction l as [|[n c] l IH]; intros t t' H; simpl; auto.
  apply IH. apply fmul_feq; auto. apply feq_refl.
Qed.

(** Species with a zero coefficient contribute the factor [c ** 0 = 1]. *)
Lemma equilibrium_quotient_compress stoich :
  forall c t,
    feq (fold_left (fun tot nc => (tot * (snd nc) ** (fst nc))%float)
                   (pyzip stoich c) t)
        (fold_left (fun tot nc => (tot * (snd nc) ** (fst nc))%float)
                   (pyzip (compress stoich stoich) (compress stoich c)) t).
Proof.
  induction stoich as [|s stoich IH]; intros [|x c] t; simpl;
    try apply feq_refl.
  - destruct (Z.eqb s 0); simpl; try apply feq_refl.
    destruct (compress stoich stoich); apply feq_refl.
  - destruct (Z.eqb_spec s 0) as [->|Hs]; simpl.
    + eapply feq_trans; [|apply IH].
      apply equilibrium_quotient_fold_feq. apply fmul_one_r.
    + apply IH.
Qed.

Lemma equilibrium_residual_compress rc c0 stoich K r :
  equilibrium_residual rc c0 stoich K None = Ok r ->
  exists r', equilibrium_residual rc (compress stoich c0)
               (compress stoich stoich) K None = Ok r' /\ feq r r'.
Proof.
  unfold equilibrium_residual. intros H.
  apply bind_Ok_inv in H. destruct H as (c & Hc & H).
  inversion H; subst r. rewrite (conc_at_compress _ _ _ _ Hc). simpl.
  eexists. split; [reflexivity|].
  apply fsub_feq; [apply feq_refl|].
  apply equilibrium_quotient_compress.
Qed.

(* ===================================================================== *)
(** * Facts used by the sanity check and the phase conditions *)
(* ===================================================================== *)

Lemma fle_not_fltb x y : fle y x -> fltb x y = false.
Proof.
  destruct x as [a| | |], y as [b| | |]; simpl; try tauto; try reflexivity.
  intros H. destruct (a ?= b) eqn:E; auto.
  apply Qlt_alt in E. lra.
Qed.

Lemma fltb_false_iff x y :
  is_nan x = false -> is_nan y = false -> (fltb x y = false <-> fle y x).
Proof.
  intros Hx Hy. split; [now apply fltb_false_fle | apply fle_not_fltb].
Qed.

Lemma not_flt_fle x y :
  is_nan x = false -> is_nan y = false -> ~ flt x y -> fle y x.
Proof.
  intros Hx Hy H. apply fltb_false_fle; auto.
  destruct (fltb x y) eqn:E; auto. apply fltb_flt in E. contradiction.
Qed.

Lemma np_any_iff (bs : list bool) : np_any bs = true <-> In true bs.
Proof.
  unfold np_any. rewrite existsb_exists. split.
  - intros (b & Hin & Hb). now subst.
  - intros H. exists true. auto.
Qed.

Lemma np_any_zip_with {A B} (f : A -> B -> bool) xs ys r :
  zip_with f xs ys = Ok r ->
  (np_any r = true <->
   exists i x y, nth_error xs i = Some x /\ nth_error ys i = Some y /\
                 f x y = true).
Proof.
  intros H. rewrite np_any_iff. split.
  - intros Hin.
    destruct (zip_with_In _ _ _ _ _ H Hin) as (i & x & y & ? & ? & ?).
    exists i, x, y. auto.
  - intros (i & x & y & Hx & Hy & Hf).
    rewrite <- Hf. eapply nth_error_In. eapply zip_with_nth; eauto.
Qed.

Lemma eq_constants_from_nil {T} (eq_params : list T) small :
  forall idx, eq_constants_from idx [] eq_params small = eq_params.
Proof.
  induction eq_params as [|v rest IH]; intros idx; simpl; auto.
  now rewrite IH.
Qed.

Lemma eq_constants_default sys :
  eq_constants sys [] None zero = map param (rxns sys).
Proof. unfold eq_constants. apply eq_constants_from_nil. Qed.

(** What the two tests of [_result_is_sane] compute. *)
Lemma neg_conc_iff x :
  np_any (map (fun xi => (xi <? zero)%float) x) = true <-> has_negative x.
Proof.
  rewrite np_any_map. unfold has_negative.
  split; intros (xi & Hin & H); exists xi; split; auto; now apply fltb_flt.
Qed.

Lemma too_much_iff x ub gt :
  zip_with fgtb x (map (fun b => (b * sane_tol)%float) ub) = Ok gt ->
  (np_any gt = true <-> exceeds_bound ub x).
Proof.
  intros H. rewrite (np_any_zip_with _ _ _ _ H). unfold exceeds_bound.
  split.
  - intros (i & xi & y & Hx & Hy & Hf).
    rewrite nth_error_map in Hy.
    destruct (nth_error ub i) as [bi|] eqn:Hb; simpl in Hy; try discriminate.
    inversion Hy; subst y. exists i, xi, bi. repeat split; auto.
    now apply fltb_flt.
  - intros (i & xi & bi & Hx & Hb & Hf).
    exists i, xi, (bi * sane_tol)%float. repeat split; auto.
    + now apply (map_nth_error (fun b => (b * sane_tol)%float)).
    + now apply fltb_flt.
Qed.

Lemma result_is_sane_unfold sys init_concs x ub :
  upper_conc_bounds sys init_concs py_min = Ok ub ->
  length x = length ub ->
  exists gt,
    zip_with fgtb x (map (fun b => (b * sane_tol)%float) ub) = Ok gt /\
    _result_is_sane sys init_concs x =
    let neg_conc := np_any (map (fun xi => (xi <? zero)%float) x) in
    let too_much := np_any gt in
    if neg_conc || too_much then
      Ok (false, (if neg_conc then [NegativeConcentration] else []) ++
                 (if too_much then [TooMuch] else []))
    else Ok (true, []).
Proof.
  intros Hub Hlen.
  destruct (zip_with_Ok fgtb x (map (fun b => (b * sane_tol)%float) ub))
    as [gt Hgt]; [now rewrite length_map|].
  exists gt. split; auto.
  unfold _result_is_sane. rewrite Hub. simpl. rewrite Hgt. reflexivity.
Qed.

Lemma result_is_sane_inv sys init_concs x sane ws :
  _result_is_sane sys init_concs x = Ok (sane, ws) ->
  exists ub, upper_conc_bounds sys init_concs py_min = Ok ub /\
             length x = length ub.
Proof.
  unfold _result_is_sane. intros H.
  apply bind_Ok_inv in H. destruct H as (ub & Hub & H).
  apply bind_Ok_inv in H. destruct H as (gt & Hgt & _).
  exists ub. split; auto.
  destruct (zip_with_length _ _ _ _ Hgt) as [Hl _].
  now rewrite length_map in Hl.
Qed.

(* ===================================================================== *)
(** * The dissolved projection *)
(* ===================================================================== *)

Lemma is_finite_Fin v : is_finite v = true -> exists q, v = Fin q.
Proof. destruct v; try discriminate. eauto. Qed.

Lemma all_finite_nth x i v :
  all_finite x -> nth_error x i = Some v -> exists q, v = Fin q.
Proof.
  intros H Hv. apply is_finite_Fin.
  unfold all_finite in H. rewrite Forall_forall in H.
  apply H. eapply nth_error_In; eauto.
Qed.

Lemma dissolved_step_no_precipitate cur r :
  has_precipitates r = false -> dissolved_step cur r = Ok cur.
Proof. intros H. unfold dissolved_step. now rewrite H. Qed.

Lemma dissolved_step_spec cur r :
  all_finite cur -> precipitation_wf (length cur) r ->
  has_precipitates r = true ->
  exists new,
    dissolved_step cur r = Ok new /\
    all_finite new /\ length new = length cur /\
    (exists v, nth_error new (s_idx r) = Some v /\ feq v zero) /\
    (forall k ck, nth_error (net_stoich r) k = Some 0%Z ->
                  nth_error cur k = Some ck ->
                  exists v, nth_error new k = Some v /\ feq v ck).
Proof.
  intros Hfin Hwf Hp. destruct (Hwf Hp) as (Hlen & Hnz & Hs).
  assert (Hlt : (s_idx r < length cur)%nat).
  { rewrite <- Hlen. apply nth_error_Some. congruence. }
  destruct (nth_error cur (s_idx r)) as [c|] eqn:Hc;
    [|apply nth_error_None in Hc; lia].
  destruct (all_finite_nth _ _ _ Hfin Hc) as [qc ->].
  unfold dissolved_step. rewrite Hp. unfold getitem. rewrite Hc.
  rewrite bind_Ok.
  rewrite (fdiv_of_Z_nonzero qc (s_stoich r) Hnz).
  set (factor := (qc / inject_Z (s_stoich r))%Q).
  destruct (zip_with_Ok fsub cur
              (map (fun n => (Fin factor * of_Z n)%float) (net_stoich r)))
    as [new Hnew]; [now rewrite length_map|].
  exists new. split; [exact Hnew|].
  assert (Hnth : forall k ck n,
             nth_error cur k = Some (Fin ck) ->
             nth_error (net_stoich r) k = Some n ->
             nth_error new k
             = Some (Fin (ck + - (factor * inject_Z n))%Q)).
  { intros k ck n Hk Hn.
    rewrite (zip_with_nth _ _ _ _ k _ _ Hnew Hk
               (map_nth_error (fun n => (Fin factor * of_Z n)%float) k
                              (net_stoich r) Hn)).
    reflexivity. }
  split; [|split; [|split]].
  - apply Forall_forall. intros v Hv.
    destruct (zip_with_In _ _ _ _ _ Hnew Hv) as (i & a & b & Ha & Hb & ->).
    destruct (all_finite_nth _ _ _ Hfin Ha) as [qa ->].
    rewrite nth_error_map in Hb.
    destruct (nth_error (net_stoich r) i); simpl in Hb; try discriminate.
    inversion Hb. reflexivity.
  - now destruct (zip_with_length _ _ _ _ Hnew).
  - eexists. split; [apply (Hnth _ _ _ Hc Hs)|].
    simpl. unfold factor. field.
    intros E. apply Hnz. unfold Qeq, inject_Z in E. simpl in E. lia.
  - intros k ck Hk0 Hk.
    destruct (all_finite_nth _ _ _ Hfin Hk) as [q ->].
    eexists. split; [apply (Hnth _ _ _ Hk Hk0)|].
    simpl. unfold inject_Z. ring.
Qed.

Lemma untouched_cons r rs k :
  untouched (r :: rs) k ->
  (has_precipitates r = true -> nth_error (net_stoich r) k = Some 0%Z) /\
  untouched rs k.
Proof.
  intros H. split.
  - intros Hp. apply H; simpl; auto.
  - intros r' Hin Hp. apply H; simpl; auto.
Qed.

Lemma dissolved_loop_spec rs :
  forall cur,
    all_finite cur -> Forall (precipitation_wf (length cur)) rs ->
    exists d,
      dissolved_loop rs cur = Ok d /\
      all_finite d /\ length d = length cur /\
      (forall k ck, untouched rs k -> nth_error cur k = Some ck ->
                    exists v, nth_error d k = Some v /\ feq v ck).
Proof.
  induction rs as [|r rs IH]; intros cur Hfin Hwf.
  - exists cur. simpl. repeat split; auto.
    intros k ck _ Hk. exists ck. split; auto. apply feq_refl.
  - inversion Hwf as [|? ? Hr Hrs]; subst.
    destruct (has_precipitates r) eqn:Hp.
    + destruct (dissolved_step_spec cur r Hfin Hr Hp)
        as (new & Hstep & Hfin' & Hlen & _ & Hkeep).
      rewrite <- Hlen in Hrs.
      destruct (IH new Hfin' Hrs) as (d & Hd & Hdfin & Hdlen & Hdkeep).
      exists d. simpl. rewrite Hstep. simpl.
      repeat split; auto; try congruence.
      intros k ck Hun Hk. apply untouched_cons in Hun.
      destruct Hun as [Hr0 Hun].
      destruct (Hkeep k ck (Hr0 Hp) Hk) as (v & Hv & Hvq).
      destruct (Hdkeep k v Hun Hv) as (w & Hw & Hwq).
      exists w. split; auto. eapply feq_trans; eauto.
    + destruct (IH cur Hfin Hrs) as (d & Hd & Hdfin & Hdlen & Hdkeep).
      exists d. simpl. rewrite (dissolved_step_no_precipitate _ _ Hp). simpl.
      repeat split; auto.
      intros k ck Hun Hk. apply untouched_cons in Hun. apply Hdkeep; tauto.
Qed.

Lemma dissolved_loop_app pre post cur :
  dissolved_loop (pre ++ post) cur
  = bind (dissolved_loop pre cur) (dissolved_loop post).
Proof.
  revert cur. induction pre as [|r pre IH]; intros cur; simpl; auto.
  destruct (dissolved_step cur r); simpl; auto.
Qed.

(* ===================================================================== *)
(** * Facts about [mapM], [pyzip] and the linear algebra helpers *)
(* ===================================================================== *)

Lemma mapM_length {A B} (f : A -> result B) l r :
  mapM f l = Ok r -> length r = length l.
Proof.
  revert r. induction l as [|a l IH]; intros r; simpl.
  - intros H; inversion H; reflexivity.
  - destruct (f a) as [b|e]; simpl; try discriminate.
    destruct (mapM f l) as [r'|e]; simpl; try discriminate.
    intros H; inversion H; subst. simpl. f_equal. now apply IH.
Qed.

Lemma mapM_nth {A B} (f : A -> result B) l r i a :
  mapM f l = Ok r -> nth_error l i = Some a ->
  exists b, f a = Ok b /\ nth_error r i = Some b.
Proof.
  revert r i. induction l as [|a' l IH]; intros r i; simpl.
  - destruct i; discriminate.
  - destruct (f a') as [b|e] eqn:Ef; simpl; try discriminate.
    destruct (mapM f l) as [r'|e] eqn:Em; simpl; try discriminate.
    intros H; inversion H; subst. destruct i as [|i]; simpl.
    + intros Ha; inversion Ha; subst. eauto.
    + intros Ha. apply (IH r' i eq_refl Ha).
Qed.

Lemma mapM_Ok {A B} (f : A -> result B) l :
  (forall a, In a l -> exists b, f a = Ok b) -> exists r, mapM f l = Ok r.
Proof.
  induction l as [|a l IH]; intros H; simpl.
  - eauto.
  - destruct (H a) as [b Hb]; [now left|]. rewrite Hb. simpl.
    destruct IH as [r Hr]; [intros; apply H; now right|].
    rewrite Hr. simpl. eauto.
Qed.

Lemma mapM_map {A B} (f : A -> result B) (g : A -> B) l :
  Forall (fun a => f a = Ok (g a)) l -> mapM f l = Ok (map g l).
Proof.
  induction 1 as [|a l Ha _ IH]; simpl; auto.
  rewrite Ha, IH. reflexivity.
Qed.

Lemma pyzip_length {A B} (xs : list A) (ys : list B) :
  length (pyzip xs ys) = Nat.min (length xs) (length ys).
Proof.
  revert ys. induction xs as [|x xs IH]; intros [|y ys]; simpl; auto.
Qed.

Lemma pyzip_nth {A B} (xs : list A) (ys : list B) i x y :
  nth_error xs i = Some x -> nth_error ys i = Some y ->
  nth_error (pyzip xs ys) i = Some (x, y).
Proof.
  revert ys i. induction xs as [|x' xs IH]; intros [|y' ys] [|i]; simpl;
    try discriminate.
  - congruence.
  - apply IH.
Qed.

Section LinearAlgebraFacts.

Context {T : Type} `{Num T}.

Lemma mat_dot_vec_terms_nth (M : list (list T)) v terms i row t :
  nth_error M i = Some row -> nth_error terms i = Some t ->
  nth_error (mat_dot_vec M v (Some terms)) i
  = Some (n_add (vec_dot_vec row v) t).
Proof.
  intros Hr Ht. unfold mat_dot_vec.
  now rewrite (map_nth_error _ i _ (pyzip_nth _ _ i _ _ Hr Ht)).
Qed.

Lemma mat_dot_vec_terms_length (M : list (list T)) v terms :
  length (mat_dot_vec M v (Some terms))
  = Nat.min (length M) (length terms).
Proof. unfold mat_dot_vec. now rewrite length_map, pyzip_length. Qed.

Lemma mat_dot_vec_nth (M : list (list T)) v i row :
  nth_error M i = Some row ->
  nth_error (mat_dot_vec M v None) i = Some (vec_dot_vec row v).
Proof. intros Hr. unfold mat_dot_vec. now rewrite (map_nth_error _ i _ Hr). Qed.

Lemma linear_exprs_plain_nth linear_rref (M : list (list T)) x b i row bi :
  nth_error M i = Some row -> nth_error b i = Some bi ->
  nth_error (linear_exprs linear_rref M x b false) i
  = Some (n_sub (vec_dot_vec row x) bi).
Proof.
  intros Hr Hb. unfold linear_exprs.
  now rewrite (map_nth_error _ i _ (pyzip_nth _ _ i _ _ Hr Hb)).
Qed.

Lemma linear_exprs_plain_length linear_rref (M : list (list T)) x b :
  length (linear_exprs linear_rref M x b false)
  = Nat.min (length M) (length b).
Proof. unfold linear_exprs. now rewrite length_map, pyzip_length. Qed.

End LinearAlgebraFacts.

(* ===================================================================== *)
(** * Facts about the real functions of the transforms *)
(* ===================================================================== *)

Section RealFacts.

Local Open Scope R_scope.

Lemma R_div_Ok x y : y <> 0 -> R_div x y = Ok (x / y).
Proof. intros Hy. unfold R_div. destruct (Req_dec_T y 0); tauto. Qed.

Lemma np_log_Ok x : 0 < x -> np_log x = Ok (ln x).
Proof. intros Hx. unfold np_log. destruct (Rlt_dec 0 x); tauto. Qed.

Lemma np_arctanh_Ok u : Rabs u < 1 -> np_arctanh u = Ok (arctanh u).
Proof. intros Hu. unfold np_arctanh. destruct (Rlt_dec (Rabs u) 1); tauto. Qed.

Lemma np_arctanh_Raise u :
  1 <= u -> np_arctanh u = Raise FloatingPointError.
Proof.
  intros Hu. unfold np_arctanh.
  destruct (Rlt_dec (Rabs u) 1) as [Hlt|]; auto.
  apply Rabs_def2 in Hlt. lra.
Qed.

Lemma ln_2_pos : 0 < ln 2.
Proof. rewrite <- ln_1. apply ln_increasing; lra. Qed.

Lemma tanh_arctanh u : Rabs u < 1 -> tanh (arctanh u) = u.
Proof.
  intros Hu. apply Rabs_def2 in Hu. destruct Hu as [Hu1 Hu2].
  set (w := (1 + u) / (1 - u)).
  assert (Hw : 0 < w) by (unfold w; apply Rdiv_lt_0_compat; lra).
  set (e := exp (arctanh u)).
  assert (He : 0 < e) by apply exp_pos.
  assert (He2 : e * e = w).
  { unfold e. rewrite <- exp_plus. unfold arctanh. fold w.
    replace (ln w / 2 + ln w / 2) with (ln w) by field. now apply exp_ln. }
  unfold tanh, sinh, cosh. rewrite exp_Ropp. fold e.
  transitivity ((e * e - 1) / (e * e + 1)).
  - field. split; nra.
  - rewrite He2. unfold w. field. lra.
Qed.

Lemma sqrt_abs_square v : 0 <= v -> sqrt (Rabs v) ^ 2 = v.
Proof.
  intros Hv. simpl. rewrite Rmult_1_r, sqrt_sqrt by apply Rabs_pos.
  now apply Rabs_pos_eq.
Qed.

Lemma NumSysLog_small_pos : 0 < NumSysLog.small.
Proof. apply exp_pos. Qed.

(** The upper bounds of the example: one unit of the element in all. *)
Lemma log_example_bounds :
  upper_conc_bounds log_example_sys [1; 0] py_min = Ok [1; 1].
Proof.
  unfold upper_conc_bounds, composition_conc, choose_from. simpl.
  unfold R_div. destruct (Req_dec_T 1 0) as [E|E]; [lra|]. simpl.
  repeat f_equal; field.
Qed.

End RealFacts.

(** An elementwise operation that raises nowhere is a plain one. *)
Lemma zip_withM_Forall2 {A B C} (f : A -> B -> result C) (g : A -> B -> C)
    xs ys :
  Forall2 (fun x y => f x y = Ok (g x y)) xs ys ->
  exists r, zip_withM f xs ys = Ok r /\ zip_with g xs ys = Ok r.
Proof.
  unfold zip_withM.
  induction 1 as [|x y xs ys Hxy _ IH]; simpl.
  - eauto.
  - destruct IH as (r & Hm & Hg).
    destruct (zip_with f xs ys) as [l|e]; simpl in Hm; try discriminate.
    simpl. rewrite Hxy. simpl. rewrite Hm, Hg. simpl. eauto.
Qed.

Lemma zip_with_round_trip {A B C} (g : A -> B -> C) (h : C -> B -> A)
    xs ys r :
  Forall2 (fun x y => h (g x y) y = x) xs ys ->
  zip_with g xs ys = Ok r -> zip_with h r ys = Ok xs.
Proof.
  intros HF. revert r.
  induction HF as [|x y xs ys Hxy _ IH]; intros r; simpl.
  - intros H; inversion H; reflexivity.
  - destruct (zip_with g xs ys) as [r'|e]; try discriminate.
    intros H; inversion H; subst. simpl. rewrite (IH r' eq_refl), Hxy.
    reflexivity.
Qed.

Lemma Forall2_impl2 {A B} (P Q : A -> B -> Prop) xs ys :
  (forall x y, P x y -> Q x y) -> Forall2 P xs ys -> Forall2 Q xs ys.
Proof. intros H. induction 1; constructor; auto. Qed.

Lemma map_id_Forall {A} (h : A -> A) l :
  Forall (fun a => h a = a) l -> map h l = l.
Proof. induction 1 as [|a l Ha _ IH]; simpl; congruence. Qed.

(* ===================================================================== *)
(** * The residuals of [NumSysLog] *)
(* ===================================================================== *)

Section NumSysLogFacts.

Context {T : Type} `{Backend T}.
Variable stoichs : EqSystem -> list nat -> list (list Z).
Variable linear_rref : list (list T) -> list T -> list (list T) * list T.

Lemma NumSysLog_f_unfold self y params A ks :
  _get_A_ks stoichs linear_rref self NumSysLog.small
    (skipn (ns (eqsys self)) params) = Ok (A, ks) ->
  (forall k, In k ks -> exists l, b_log k = Ok l) ->
  exists terms,
    NumSysLog.f stoichs linear_rref self y params
    = Ok (mat_dot_vec A y (Some terms) ++
          linear_exprs linear_rref
            (matrix_of_Z (fst (composition_balance_vectors (eqsys self))))
            (map b_exp y)
            (mat_dot_vec
               (matrix_of_Z (fst (composition_balance_vectors (eqsys self))))
               (firstn (ns (eqsys self)) params) None)
            (rref_preserv self)) /\
    length terms = length ks /\
    forall i k, nth_error ks i = Some k ->
                exists l, b_log k = Ok l /\ nth_error terms i = Some (n_neg l).
Proof.
  intros HA Hlog.
  destruct (mapM_Ok (fun k => bind (b_log k) (fun l => Ok (n_neg l))) ks)
    as [terms Hterms].
  { intros k Hk. destruct (Hlog k Hk) as [l Hl]. rewrite Hl. simpl. eauto. }
  exists terms. split; [|split].
  - unfold NumSysLog.f, _inits_and_eq_params. rewrite HA. simpl.
    rewrite Hterms. simpl. reflexivity.
  - now apply mapM_length in Hterms.
  - intros i k Hk. destruct (mapM_nth _ _ _ _ _ Hterms Hk) as (t & Ht & Hnth).
    destruct (b_log k) as [l|e]; simpl in Ht; try discriminate.
    inversion Ht; subst t. eauto.
Qed.

End NumSysLogFacts.

(* ===================================================================== *)
(** * More on the reaction-coordinate interval *)
(* ===================================================================== *)

Lemma get_rc_interval_inv stoich c0 lower upper :
  get_rc_interval stoich c0 = Ok (lower, upper) ->
  exists limits,
    rc_limits stoich c0 = Ok limits /\
    rc_upper limits = Ok upper /\ rc_lower limits = Ok lower /\
    is_int0 lower && is_int0 upper = false.
Proof.
  unfold get_rc_interval. intros H.
  apply bind_Ok_inv in H. destruct H as (limits & Hlim & H).
  apply bind_Ok_inv in H. destruct H as (u & Hu & H).
  apply bind_Ok_inv in H. destruct H as (l & Hl & H).
  destruct (is_int0 l && is_int0 u) eqn:E; [discriminate|].
  inversion H; subst. exists limits. auto.
Qed.

Lemma inject_Z_pos s : (0 < s)%Z -> (0 < inject_Z s)%Q.
Proof. intros H. unfold Qlt, inject_Z. simpl. lia. Qed.

(* ===================================================================== *)
(** * The accumulated composition and the upper bounds *)
(* ===================================================================== *)

Lemma dict_get_iadd {T} `{Num T} (d : list (Z * T)) k k' v :
  dict_get (dict_iadd d k' v) k
  = if Z.eqb k k' then n_add (dict_get d k) v else dict_get d k.
Proof.
  induction d as [|[k0 w] d IH]; simpl.
  - reflexivity.
  - destruct (Z.eqb_spec k' k0) as [->|Hne]; simpl.
    + destruct (Z.eqb k k0); reflexivity.
    + rewrite IH. destruct (Z.eqb_spec k k0) as [->|Hne'].
      * destruct (Z.eqb_spec k0 k'); [congruence | reflexivity].
      * reflexivity.
Qed.

Lemma choose_from_float (d : list (Z * float)) s :
  choose_from d s
  = Ok (map (fun item => (dict_get d (fst item) / of_Z (snd item))%float)
            (non_charge s)).
Proof.
  unfold choose_from. fold (non_charge s).
  apply (mapM_map
           (fun item => n_div (dict_get d (fst item)) (n_of_Z (snd item)))).
  apply Forall_forall. intros item _. reflexivity.
Qed.

Lemma py_min_In {T} `{Num T} (l : list T) m :
  py_min l = Ok m -> In m l.
Proof.
  destruct l as [|x r]; simpl; [discriminate|].
  intros E; inversion E as [E']. clear E E'.
  revert x. induction r as [|y r IH]; intros x; simpl; auto.
  destruct (n_ltb y x).
  - destruct (IH y) as [<-|Hin]; auto.
  - destruct (IH x) as [<-|Hin]; auto.
Qed.

(** What one substance contributes to [upper_conc_bounds]. *)
Lemma bound_of_substance (d : list (Z * float)) s :
  (non_charge s = [] /\
   bind (choose_from d s) py_min
   = Raise (ValueError "min() arg is an empty sequence")) \/
  (non_charge s <> [] /\
   exists m, bind (choose_from d s) py_min = Ok m /\
     In m (map (fun item => (dict_get d (fst item) / of_Z (snd item))%float)
               (non_charge s))).
Proof.
  rewrite choose_from_float. rewrite bind_Ok.
  destruct (non_charge s) as [|item items] eqn:E.
  - left. split; reflexivity.
  - right. split; [discriminate|].
    destruct (py_min (map (fun item0 =>
                (dict_get d (fst item0) / of_Z (snd item0))%float)
                (item :: items))) as [m|e] eqn:Em; [|discriminate Em].
    exists m. split; auto. now apply py_min_In.
Qed.

Lemma mapM_Raise {A B} (f : A -> result B) e0 l :
  (forall a, In a l -> f a = Raise e0 \/ exists b, f a = Ok b) ->
  Exists (fun a => f a = Raise e0) l -> mapM f l = Raise e0.
Proof.
  induction l as [|a l IH]; intros Hcases Hex; simpl.
  - inversion Hex.
  - destruct (Hcases a (or_introl eq_refl)) as [Ha|[b Ha]]; rewrite Ha;
      [reflexivity|]. simpl.
    rewrite IH; auto.
    + intros a' Ha'. apply Hcases. now right.
    + inversion Hex; subst; auto. congruence.
Qed.

Section Accumulation.

(** Every total of the dictionary is finite and non-negative. *)
Let dnn (d : list (Z * float)) : Prop := forall k, f_nonneg (dict_get d k).

(** The totals of [d'] are at least those of [d]. *)
Let dmono (d d' : list (Z * float)) : Prop :=
  forall k a, dict_get d k = Fin a ->
              exists b, dict_get d' k = Fin b /\ (a <= b)%Q.

Lemma add_composition_mono q d item :
  (0 <= q)%Q -> dnn d ->
  (Z.eqb (fst item) 0 = false -> (0 < snd item)%Z) ->
  dnn (add_composition (Fin q) d item) /\
  dmono d (add_composition (Fin q) d item) /\
  (Z.eqb (fst item) 0 = false ->
   exists t, dict_get (add_composition (Fin q) d item) (fst item) = Fin t /\
             (inject_Z (snd item) * q <= t)%Q).
Proof.
  intros Hq Hd Hpos. destruct item as [k' coeff]. simpl in *.
  destruct (Z.eqb k' 0) eqn:E.
  - split; [exact Hd|]. split; [|discriminate].
    intros k a Ha. exists a. split; auto. lra.
  - specialize (Hpos eq_refl). apply inject_Z_pos in Hpos.
    assert (Hget : forall k, dict_get (dict_iadd d k'
                                 (of_Z coeff * Fin q)%float) k
                   = if Z.eqb k k'
                     then (dict_get d k + of_Z coeff * Fin q)%float
                     else dict_get d k).
    { intros k. exact (dict_get_iadd d k k' (of_Z coeff * Fin q)%float). }
    split; [|split].
    + intros k. rewrite Hget. destruct (Z.eqb k k'); auto.
      destruct (Hd k) as (a & -> & Ha). simpl.
      eexists. split; [reflexivity|]. nra.
    + intros k a Ha. rewrite Hget. destruct (Z.eqb k k').
      * rewrite Ha. simpl. eexists. split; [reflexivity|]. nra.
      * exists a. split; auto. lra.
    + intros _. rewrite Hget, Z.eqb_refl.
      destruct (Hd k') as (a & -> & Ha). simpl.
      eexists. split; [reflexivity|]. lra.
Qed.

Lemma dmono_trans d1 d2 d3 : dmono d1 d2 -> dmono d2 d3 -> dmono d1 d3.
Proof.
  intros H1 H2 k a Ha. destruct (H1 k a Ha) as (b & Hb & Hab).
  destruct (H2 k b Hb) as (c & Hc & Hbc). exists c. split; auto. lra.
Qed.

(** The inner loop over the composition of one substance. *)
Lemma fold_add_composition q items :
  (0 <= q)%Q ->
  Forall (fun item => Z.eqb (fst item) 0 = false -> (0 < snd item)%Z) items ->
  forall d, dnn d ->
    dnn (fold_left (add_composition (Fin q)) items d) /\
    dmono d (fold_left (add_composition (Fin q)) items d) /\
    (forall item, In item items -> Z.eqb (fst item) 0 = false ->
       exists t, dict_get (fold_left (add_composition (Fin q)) items d)
                          (fst item) = Fin t /\
                 (inject_Z (snd item) * q <= t)%Q).
Proof.
  intros Hq. induction 1 as [|item items Hitem _ IH]; intros d Hd; simpl.
  - split; [exact Hd|]. split; [|intros ? []].
    intros k a Ha. exists a. split; auto. lra.
  - destruct (add_composition_mono q d item Hq Hd Hitem) as (H1 & H2 & H3).
    destruct (IH _ H1) as (I1 & I2 & I3).
    split; [exact I1|]. split; [eapply dmono_trans; eauto|].
    intros it [<-|Hin] Hk.
    + destruct (H3 Hk) as (t & Ht & Hle).
      destruct (I2 _ _ Ht) as (b & Hb & Htb). exists b. split; auto. lra.
    + now apply I3.
Qed.

(** The outer loop over the substances. *)
Lemma fold_composition_conc l :
  Forall (fun cs => (exists q, fst cs = Fin q /\ (0 <= q)%Q) /\
                    Forall (fun item => Z.eqb (fst item) 0 = false ->
                                        (0 < snd item)%Z)
                           (composition (snd cs))) l ->
  forall d, dnn d ->
    let d' := fold_left (fun d cs => fold_left (add_composition (fst cs))
                                       (composition (snd cs)) d) l d in
    dnn d' /\ dmono d d' /\
    (forall q s item, In (Fin q, s) l -> In item (composition s) ->
       Z.eqb (fst item) 0 = false ->
       exists t, dict_get d' (fst item) = Fin t /\
                 (inject_Z (snd item) * q <= t)%Q).
Proof.
  induction 1 as [|[c s] l [(q & Hc & Hq) Hitems] _ IH]; intros d Hd; simpl.
  - split; [exact Hd|]. split; [|intros ? ? ? []].
    intros k a Ha. exists a. split; auto. lra.
  - simpl in Hc, Hitems. subst c.
    destruct (fold_add_composition q (composition s) Hq Hitems d Hd)
      as (H1 & H2 & H3).
    destruct (IH _ H1) as (I1 & I2 & I3).
    split; [exact I1|]. split; [eapply dmono_trans; eauto|].
    intros q' s' item [E|Hin] Hitem Hk.
    + inversion E; subst q' s'.
      destruct (H3 item Hitem Hk) as (t & Ht & Hle).
      destruct (I2 _ _ Ht) as (b & Hb & Htb). exists b. split; auto. lra.
    + eapply I3; eauto.
Qed.

End Accumulation.

Lemma non_charge_In s item :
  In item (non_charge s) <->
  In item (composition s) /\ Z.eqb (fst item) 0 = false.
Proof.
  unfold non_charge. rewrite filter_In.
  destruct (Z.eqb (fst item) 0); simpl; intuition congruence.
Qed.

Lemma positive_coefficients_items s :
  positive_coefficients s ->
  Forall (fun item => Z.eqb (fst item) 0 = false -> (0 < snd item)%Z)
         (composition s).
Proof.
  intros H. apply Forall_forall. intros item Hin Hk.
  unfold positive_coefficients in H. rewrite Forall_forall in H.
  apply H. apply non_charge_In. auto.
Qed.

Lemma pyzip_nth_In {A B} (xs : list A) (ys : list B) i x y :
  nth_error xs i = Some x -> nth_error ys i = Some y ->
  In (x, y) (pyzip xs ys).
Proof. intros Hx Hy. eapply nth_error_In. apply pyzip_nth; eauto. Qed.

Lemma pyzip_Forall {A B} (P : A -> Prop) (R : B -> Prop)
    (xs : list A) (ys : list B) :
  Forall P xs -> Forall R ys ->
  Forall (fun p => P (fst p) /\ R (snd p)) (pyzip xs ys).
Proof.
  intros HP. revert ys. induction HP as [|x xs Hx _ IH]; intros ys HR.
  - constructor.
  - destruct HR as [|y ys Hy HR]; simpl; constructor; auto.
Qed.

(** Every total is at least what the substance itself contributes. *)
Lemma composition_conc_lower sys (init_concs : list float) i s q item :
  all_nonneg init_concs ->
  Forall positive_coefficients (substances sys) ->
  nth_error init_concs i = Some (Fin q) ->
  nth_error (substances sys) i = Some s ->
  In item (non_charge s) ->
  exists t, dict_get (composition_conc sys init_concs) (fst item) = Fin t /\
            (inject_Z (snd item) * q <= t)%Q.
Proof.
  intros Hnn Hpos Hq Hs Hitem. apply non_charge_In in Hitem.
  destruct Hitem as [Hitem Hk]. unfold composition_conc.
  assert (Hgood : Forall (fun cs =>
            (exists q, fst cs = Fin q /\ (0 <= q)%Q) /\
            Forall (fun item => Z.eqb (fst item) 0 = false ->
                                (0 < snd item)%Z)
                   (composition (snd cs)))
            (pyzip init_concs (substances sys))).
  { apply (pyzip_Forall
             (fun c => exists q, c = Fin q /\ (0 <= q)%Q)
             (fun s => Forall (fun item => Z.eqb (fst item) 0 = false ->
                                           (0 < snd item)%Z)
                              (composition s))); auto.
    eapply Forall_impl; [|exact Hpos].
    intros a. apply positive_coefficients_items. }
  destruct (fold_composition_conc _ Hgood [])
    as (_ & _ & H3).
  { intros k. exists 0%Q. split; [reflexivity | lra]. }
  apply (H3 q s item); auto. eapply pyzip_nth_In; eauto.
Qed.

Lemma upper_conc_bounds_Ok sys (init_concs : list float) :
  Forall (fun s => non_charge s <> []) (substances sys) ->
  exists ub, upper_conc_bounds sys init_concs py_min = Ok ub /\
             length ub = ns sys.
Proof.
  intros Hcomp. unfold upper_conc_bounds.
  destruct (mapM_Ok (fun s_obj =>
              bind (choose_from (composition_conc sys init_concs) s_obj)
                   py_min) (substances sys)) as [ub Hub].
  { intros s Hs. rewrite Forall_forall in Hcomp.
    destruct (bound_of_substance (composition_conc sys init_concs) s)
      as [[Hnil _]|[_ (m & Hm & _)]]; [|eauto].
    exfalso. now apply (Hcomp s Hs). }
  exists ub. split; [exact Hub|]. now apply mapM_length in Hub.
Qed.

(** A bound is one of the quotients total/coefficient of its substance. *)
Lemma upper_conc_bounds_nth sys (init_concs : list float) ub i s b :
  upper_conc_bounds sys init_concs py_min = Ok ub ->
  nth_error (substances sys) i = Some s -> nth_error ub i = Some b ->
  exists item, In item (non_charge s) /\
    b = (dict_get (composition_conc sys init_concs) (fst item)
         / of_Z (snd item))%float.
Proof.
  intros Hub Hs Hb. unfold upper_conc_bounds in Hub.
  destruct (mapM_nth _ _ _ _ _ Hub Hs) as (b' & Hb' & Hnth).
  rewrite Hb in Hnth. inversion Hnth; subst b'.
  change (bind (choose_from (composition_conc sys init_concs) s) py_min
          = Ok b) in Hb'.
  destruct (bound_of_substance (composition_conc sys init_concs) s)
    as [[_ Hr]|[_ (m & Hm & Hin)]].
  - rewrite Hr in Hb'. discriminate.
  - rewrite Hm in Hb'. inversion Hb'; subst m.
    apply in_map_iff in Hin. destruct Hin as (item & <- & Hitem).
    exists item. auto.
Qed.

(* ===================================================================== *)
(** * Finite vectors and their rationals *)
(* ===================================================================== *)

Lemma all_finite_map x : all_finite x -> exists qs, x = map Fin qs.
Proof.
  induction 1 as [|v x Hv _ (qs & ->)].
  - exists []. reflexivity.
  - destruct (is_finite_Fin v Hv) as [q ->]. exists (q :: qs). reflexivity.
Qed.

Lemma composition_balance_Fin subs k :
  forall qs a,
    fold_left (fun res sc =>
                 (res + of_Z (comp_get (fst sc) k) * snd sc)%float)
              (pyzip subs (map Fin qs)) (Fin a)
    = Fin (balance_Q subs qs k a).
Proof.
  unfold balance_Q.
  induction subs as [|s subs IH]; intros [|q qs] a; simpl; auto.
Qed.

(* ===================================================================== *)
(** * The totals of [upper_conc_bounds] are the composition balances *)
(* ===================================================================== *)

Lemma all_nonneg_map x :
  all_nonneg x ->
  exists qs, x = map Fin qs /\ Forall (fun q => (0 <= q)%Q) qs.
Proof.
  induction 1 as [|v x (q & -> & Hq) _ (qs & -> & Hqs)].
  - exists []. split; [reflexivity | constructor].
  - exists (q :: qs). split; [reflexivity | now constructor].
Qed.

Lemma find_key_None (items : list (Z * Z)) k :
  ~ In k (map fst items) ->
  find (fun item => Z.eqb (fst item) k) items = None.
Proof.
  induction items as [|it items IH]; simpl; intros Hnot; [reflexivity|].
  destruct (Z.eqb_spec (fst it) k) as [E|_]; [exfalso; auto|].
  apply IH. auto.
Qed.

Lemma find_key_In (items : list (Z * Z)) item :
  NoDup (map fst items) -> In item items ->
  find (fun it => Z.eqb (fst it) (fst item)) items = Some item.
Proof.
  induction items as [|it items IH]; simpl; intros Hnd Hin; [destruct Hin|].
  inversion Hnd as [|? ? Hnotin Hnd']; subst.
  destruct Hin as [->|Hin].
  - now rewrite Z.eqb_refl.
  - destruct (Z.eqb_spec (fst it) (fst item)) as [E|_]; [|auto].
    exfalso. apply Hnotin. rewrite E. now apply in_map.
Qed.

Lemma comp_get_item s item :
  unique_keys s -> In item (composition s) ->
  comp_get s (fst item) = snd item.
Proof.
  intros Hu Hin. unfold comp_get. now rewrite (find_key_In _ _ Hu Hin).
Qed.

Lemma comp_get_nonneg s k :
  k <> 0%Z -> positive_coefficients s -> (0 <= comp_get s k)%Z.
Proof.
  intros Hk Hpos. unfold comp_get.
  destruct (find (fun item => Z.eqb (fst item) k) (composition s))
    as [item|] eqn:E; [|lia].
  apply find_some in E. destruct E as [Hin Hkey].
  apply Z.eqb_eq in Hkey.
  unfold positive_coefficients in Hpos. rewrite Forall_forall in Hpos.
  assert (0 < snd item)%Z; [|lia].
  apply Hpos. apply non_charge_In. split; auto.
  apply Z.eqb_neq. congruence.
Qed.

Lemma inject_Z_nonneg s : (0 <= s)%Z -> (0 <= inject_Z s)%Q.
Proof. intros H. unfold Qle, inject_Z. simpl. lia. Qed.

(** The inner loop adds the substance's coefficient of [k] times its
    concentration to the total of [k]. *)
Lemma fold_add_composition_total q k :
  k <> 0%Z ->
  forall items, NoDup (map fst items) ->
  forall d a, dict_get d k = Fin a ->
    exists t,
      dict_get (fold_left (add_composition (Fin q)) items d) k = Fin t /\
      (t == a + inject_Z (coeff_of items k) * q)%Q.
Proof.
  intros Hk. induction items as [|[k' c] items IH]; intros Hnd d a Ha.
  - exists a. split; [exact Ha|]. unfold coeff_of, inject_Z. simpl. ring.
  - inversion Hnd as [|? ? Hnotin Hnd']; subst.
    simpl fold_left. unfold coeff_of. simpl find.
    change (add_composition (Fin q) d (k', c))
      with (if Z.eqb k' 0 then d
            else dict_iadd d k' (of_Z c * Fin q)%float).
    destruct (Z.eqb_spec k' 0) as [->|Hk'].
    + destruct (Z.eqb_spec 0 k) as [E|_]; [congruence|].
      apply (IH Hnd' d a Ha).
    + pose proof (dict_get_iadd d k k' (of_Z c * Fin q)%float) as Hget.
      destruct (Z.eqb_spec k' k) as [->|Hne].
      * rewrite Z.eqb_refl, Ha in Hget. simpl in Hget.
        destruct (IH Hnd' _ _ Hget) as (t & Ht & Hte).
        exists t. split; [exact Ht|]. rewrite Hte.
        unfold coeff_of. rewrite (find_key_None items k Hnotin).
        simpl snd. unfold inject_Z at 2. ring.
      * destruct (Z.eqb_spec k k') as [E|_]; [congruence|].
        rewrite Ha in Hget.
        apply (IH Hnd' _ _ Hget).
Qed.

Lemma balance_Q_compat subs k :
  forall qs a a', (a == a')%Q ->
    (balance_Q subs qs k a == balance_Q subs qs k a')%Q.
Proof.
  unfold balance_Q.
  induction subs as [|s subs IH]; intros [|q qs] a a' Ha; simpl; auto.
  apply IH. now rewrite Ha.
Qed.

(** The outer loop: the total of [k] is the composition balance. *)
Lemma composition_conc_total k subs :
  k <> 0%Z -> Forall unique_keys subs ->
  forall qs d a, dict_get d k = Fin a ->
    exists t,
      dict_get (fold_left (fun d cs =>
                             fold_left (add_composition (fst cs))
                                       (composition (snd cs)) d)
                          (pyzip (map Fin qs) subs) d) k = Fin t /\
      (t == balance_Q subs qs k a)%Q.
Proof.
  intros Hk. induction 1 as [|s subs Hs _ IH]; intros [|q qs] d a Ha;
    try (exists a; split; [exact Ha | reflexivity]).
  simpl.
  destruct (fold_add_composition_total q k Hk (composition s) Hs d a Ha)
    as (t1 & Ht1 & Ht1e).
  destruct (IH qs _ _ Ht1) as (t & Ht & Hte).
  exists t. split; [exact Ht|]. rewrite Hte.
  unfold balance_Q. simpl. apply (balance_Q_compat subs k qs).
  rewrite Ht1e. reflexivity.
Qed.

(** With non-negative weights and amounts, a balance is at least the share
    of each substance. *)
Lemma balance_Q_lower k subs :
  (forall s, In s subs -> (0 <= comp_get s k)%Z) ->
  forall qs a, Forall (fun q => (0 <= q)%Q) qs ->
    (a <= balance_Q subs qs k a)%Q /\
    (forall i s q, nth_error subs i = Some s -> nth_error qs i = Some q ->
       (a + inject_Z (comp_get s k) * q <= balance_Q subs qs k a)%Q).
Proof.
  unfold balance_Q.
  induction subs as [|s subs IH]; intros Hpos [|q qs] a Hqs; simpl;
    try (split; [lra|]; intros [|i] ? ?; simpl; discriminate).
  inversion Hqs as [|? ? Hq Hqs']; subst.
  assert (Hc : (0 <= inject_Z (comp_get s k))%Q)
    by (apply inject_Z_nonneg, Hpos; now left).
  destruct (IH (fun s' H' => Hpos s' (or_intror H')) qs
               (a + inject_Z (comp_get s k) * q)%Q Hqs') as [I1 I2].
  split; [nra|].
  intros [|i] s' q' Hs' Hq'; simpl in Hs', Hq'.
  - inversion Hs'; inversion Hq'; subst. exact I1.
  - pose proof (I2 i s' q' Hs' Hq'). nra.
Qed.

(* ===================================================================== *)
(** * Conserved amounts, computed in two ways *)
(* ===================================================================== *)

Lemma np_dot_fold subs k :
  forall v a, length v = length subs ->
    exists prods,
      zip_with fmul (map of_Z (map (fun s => comp_get s k) subs)) v
      = Ok prods /\
      fold_left fadd prods a
      = fold_left (fun res sc =>
                     (res + of_Z (comp_get (fst sc) k) * snd sc)%float)
                  (pyzip subs v) a.
Proof.
  induction subs as [|s subs IH]; intros [|c v] a Hlen; simpl in Hlen;
    try discriminate.
  - exists []. split; reflexivity.
  - destruct (IH v (a + of_Z (comp_get s k) * c)%float) as (prods & Hp & Hf);
      [lia|].
    exists ((of_Z (comp_get s k) * c)%float :: prods). split.
    + simpl. rewrite Hp. reflexivity.
    + simpl. exact Hf.
Qed.

Lemma np_dot_balance subs k v :
  length v = length subs ->
  np_dot (map (fun s => comp_get s k) subs) v
  = Ok (composition_balance subs v k).
Proof.
  intros Hlen. unfold np_dot, composition_balance.
  destruct (np_dot_fold subs k v zero Hlen) as (prods & Hp & Hf).
  rewrite Hp, bind_Ok, Hf. reflexivity.
Qed.

Lemma mapM_map_arg {A B C} (f : B -> result C) (g : A -> B) (h : A -> C) l :
  (forall a, In a l -> f (g a) = Ok (h a)) ->
  mapM f (map g l) = Ok (map h l).
Proof.
  induction l as [|a l IH]; intros H; simpl; [reflexivity|].
  rewrite (H a (or_introl eq_refl)), bind_Ok, IH, bind_Ok; auto.
  intros a' Ha'. apply H. now right.
Qed.

(* ===================================================================== *)
(** * Which equilibrium constants are replaced by [small] *)
(* ===================================================================== *)

Lemma eq_constants_from_nth {T} (small : T) rids :
  forall eq_params b i k,
    nth_error eq_params i = Some k ->
    nth_error (eq_constants_from b rids eq_params small) i
    = Some (if existsb (Nat.eqb (b + i)) rids then small else k).
Proof.
  induction eq_params as [|e rest IH]; intros b [|i] k Hk; simpl in Hk;
    try discriminate; simpl.
  - inversion Hk; subst. now rewrite Nat.add_0_r.
  - rewrite (IH (S b) i k Hk). now rewrite Nat.add_succ_r.
Qed.

Lemma precip_rank_S r rest i :
  precip_rank (r :: rest) (S i)
  = if has_precipitates r then S (precip_rank rest i)
    else precip_rank rest i.
Proof. unfold precip_rank. simpl. now destruct (has_precipitates r). Qed.

Lemma non_precip_from_In rs :
  forall b precs i,
    In i (map fst (filter (fun ip : nat * bool => negb (snd ip))
                          (pyzip (phase_transfer_from b rs) precs))) <->
    exists i' r,
      i = (b + i')%nat /\ nth_error rs i' = Some r /\
      has_precipitates r = true /\
      nth_error precs (precip_rank rs i') = Some false.
Proof.
  induction rs as [|r rest IH]; intros b precs i.
  - simpl. split; [intros []|].
    intros (i' & r & _ & H & _). destruct i'; discriminate H.
  - simpl phase_transfer_from. destruct (has_precipitates r) eqn:Hp.
    + destruct precs as [|p ps].
      * simpl. split; [intros []|].
        intros (i' & r' & _ & _ & _ & H).
        destruct (precip_rank (r :: rest) i'); discriminate H.
      * simpl pyzip. simpl filter.
        assert (Hrest :
          In i (map fst (filter (fun ip : nat * bool => negb (snd ip))
                  (pyzip (phase_transfer_from (S b) rest) ps))) <->
          exists i' r',
            i = (b + S i')%nat /\ nth_error rest i' = Some r' /\
            has_precipitates r' = true /\
            nth_error ps (precip_rank rest i') = Some false).
        { rewrite IH. split; intros (i' & r' & Hi & H); exists i', r';
            (split; [lia | exact H]). }
        split.
        -- intros Hin.
           assert (Hcases : (p = false /\ i = b) \/
                    In i (map fst (filter
                            (fun ip : nat * bool => negb (snd ip))
                            (pyzip (phase_transfer_from (S b) rest) ps)))).
           { destruct p; simpl in Hin; [now right|].
             destruct Hin as [<-|Hin]; [now left | now right]. }
           destruct Hcases as [[-> ->]|Hin'].
           ++ exists 0%nat, r. repeat split; auto.
           ++ apply Hrest in Hin'.
              destruct Hin' as (i' & r' & Hi & Hr' & Hp' & Hflag).
              exists (S i'), r'. rewrite precip_rank_S, Hp. auto.
        -- intros (i' & r' & Hi & Hr' & Hp' & Hflag).
           destruct i' as [|i'].
           ++ simpl in Hr'. inversion Hr'; subst r'.
              unfold precip_rank in Hflag. simpl in Hflag.
              inversion Hflag; subst p. simpl. left. lia.
           ++ rewrite precip_rank_S, Hp in Hflag. simpl in Hr', Hflag.
              assert (Hin' : In i (map fst (filter
                            (fun ip : nat * bool => negb (snd ip))
                            (pyzip (phase_transfer_from (S b) rest) ps)))).
              { apply Hrest. exists i', r'. auto. }
              destruct p; simpl; auto.
    + rewrite IH. split.
      * intros (i' & r' & Hi & Hr' & Hp' & Hflag).
        exists (S i'), r'. rewrite precip_rank_S, Hp.
        repeat split; auto. lia.
      * intros (i' & r' & Hi & Hr' & Hp' & Hflag).
        destruct i' as [|i'].
        -- simpl in Hr'. inversion Hr'; subst r'. congruence.
        -- rewrite precip_rank_S, Hp in Hflag. simpl in Hr'.
           exists i', r'. repeat split; auto. lia.
Qed.

Lemma non_precip_rids_solid_absent sys precs i :
  existsb (Nat.eqb i) (non_precip_rids sys precs) = solid_absent sys precs i.
Proof.
  apply eq_true_iff_eq. rewrite existsb_exists.
  unfold non_precip_rids, phase_transfer_reaction_idxs, solid_absent.
  split.
  - intros (j & Hin & Hj). apply Nat.eqb_eq in Hj. subst j.
    apply non_precip_from_In in Hin.
    destruct Hin as (i' & r & Hi & Hr & Hp & Hflag). simpl in Hi. subst i'.
    now rewrite Hr, Hp, Hflag.
  - intros H. exists i. split; [|apply Nat.eqb_refl].
    apply non_precip_from_In.
    destruct (nth_error (rxns sys) i) as [r|] eqn:Hr; [|discriminate].
    apply andb_true_iff in H. destruct H as [Hp Hflag].
    exists i, r. repeat split; auto.
    destruct (nth_error precs (precip_rank (rxns sys) i)) as [[|]|];
      try discriminate. reflexivity.
Qed.

(* ===================================================================== *)
(** * The linear and the logarithmic residuals *)
(* ===================================================================== *)

Section LinLogFacts.

Local Open Scope R_scope.

Lemma prod_pow_exp :
  forall c row s, Forall (fun v => 0 < v) c ->
    fold_left Rmult
      (map (fun be => Rpower (fst be) (snd be)) (pyzip c row)) (exp s)
    = exp (fold_left Rplus
             (map (fun p => fst p * snd p) (pyzip row (map ln c))) s).
Proof.
  induction c as [|v c IH]; intros [|a row] s Hc; simpl; try reflexivity.
  inversion Hc as [|? ? Hv Hc']; subst.
  unfold Rpower. rewrite <- exp_plus. now apply IH.
Qed.

Lemma prodpow_row_exp c row :
  Forall (fun v => 0 < v) c ->
  fold_left Rmult
    (map (fun be => Rpower (fst be) (snd be)) (pyzip c row)) 1
  = exp (vec_dot_vec row (map ln c)).
Proof.
  intros Hc. rewrite <- exp_0. now apply prod_pow_exp.
Qed.

Lemma equil_row_iff k S :
  0 < k ->
  ((if Req_dec_T k 0 then exp S else exp S / k - 1) = 0 <->
   S + - ln k = 0).
Proof.
  intros Hk. destruct (Req_dec_T k 0) as [E|_]; [lra|]. split.
  - intros H. assert (He : exp S = k).
    { apply (Rmult_eq_reg_r (/ k)); [|apply Rinv_neq_0_compat; lra].
      rewrite Rinv_r by lra. unfold Rdiv in H. lra. }
    rewrite <- He, ln_exp. lra.
  - intros H. assert (HS : S = ln k) by lra.
    rewrite HS, exp_ln by exact Hk. field. lra.
Qed.

Lemma equil_rows_same c :
  Forall (fun v => 0 < v) c ->
  forall A ks, Forall (fun k => 0 < k) ks ->
    same_zero_rows
      (map (fun qk => if Req_dec_T (snd qk) 0 then fst qk
                      else fst qk / snd qk - 1)
           (pyzip (prodpow_positive c A) ks))
      (mat_dot_vec A (map ln c) (Some (map (fun k => - ln k) ks))).
Proof.
  intros Hc. unfold same_zero_rows, prodpow_positive, mat_dot_vec.
  induction A as [|row A IH]; intros ks Hks; simpl; [constructor|].
  destruct Hks as [|k ks Hk Hks]; simpl; constructor.
  - rewrite (prodpow_row_exp c row Hc). now apply equil_row_iff.
  - now apply IH.
Qed.

Lemma mapM_neg_log ks :
  Forall (fun k => 0 < k) ks ->
  mapM (fun k => bind (b_log k) (fun l => Ok (n_neg l))) ks
  = Ok (map (fun k => - ln k) ks).
Proof.
  intros Hks. apply mapM_map. eapply Forall_impl; [|exact Hks].
  intros k Hk. simpl. now rewrite np_log_Ok.
Qed.

Lemma stoichs_constants_pos
    (stoichs : EqSystem -> list nat -> list (list Z))
    (linear_rref : list (list R) -> list R -> list (list R) * list R)
    sys eq_params rref rids :
  Forall (fun k => 0 < k) eq_params ->
  exists A ks,
    stoichs_constants stoichs linear_rref sys eq_params rref rids
    = Ok (A, ks) /\ Forall (fun k => 0 < k) ks.
Proof.
  intros Hk. unfold stoichs_constants. destruct rref.
  - rewrite (mapM_map b_log ln eq_params).
    + rewrite bind_Ok.
      destruct (linear_rref (matrix_of_Z (stoichs sys rids))
                            (map ln eq_params)) as [rA rb].
      exists rA, (map b_exp rb). split; [reflexivity|].
      apply Forall_forall. intros v Hv. apply in_map_iff in Hv.
      destruct Hv as (w & <- & _). apply exp_pos.
    + eapply Forall_impl; [|exact Hk]. intros k Hk'.
      now apply np_log_Ok.
  - eauto.
Qed.

Lemma map_exp_ln c : Forall (fun v => 0 < v) c -> map exp (map ln c) = c.
Proof.
  induction 1 as [|v c Hv _ IH]; simpl; [reflexivity|].
  now rewrite exp_ln, IH.
Qed.

Lemma same_zero_rows_refl r : same_zero_rows r r.
Proof. induction r; constructor; tauto. Qed.

End LinLogFacts.

(* ===================================================================== *)
(** * The phase-transfer reactions and the default flags *)
(* ===================================================================== *)

Lemma phase_transfer_from_In rs :
  forall b i,
    In i (phase_transfer_from b rs) <->
    exists i' r, i = (b + i')%nat /\ nth_error rs i' = Some r /\
                 has_precipitates r = true.
Proof.
  induction rs as [|r rest IH]; intros b i; simpl.
  - split; [intros []|]. intros (i' & r & _ & H & _).
    destruct i'; discriminate H.
  - assert (Hrest : In i (phase_transfer_from (S b) rest) <->
                    exists i' r', i = (b + S i')%nat /\
                                  nth_error rest i' = Some r' /\
                                  has_precipitates r' = true).
    { rewrite IH. split; intros (i' & r' & Hi & H); exists i', r';
        (split; [lia | exact H]). }
    destruct (has_precipitates r) eqn:Hp.
    + simpl. rewrite Hrest. split.
      * intros [<-|(i' & r' & Hi & Hr' & Hp')].
        -- exists 0%nat, r. repeat split; auto.
        -- exists (S i'), r'. auto.
      * intros (i' & r' & Hi & Hr' & Hp'). destruct i' as [|i'].
        -- left. lia.
        -- right. exists i', r'. auto.
    + rewrite Hrest. split.
      * intros (i' & r' & Hi & Hr' & Hp'). exists (S i'), r'. auto.
      * intros (i' & r' & Hi & Hr' & Hp'). destruct i' as [|i'].
        -- simpl in Hr'. inversion Hr'; subst r'. congruence.
        -- exists i', r'. auto.
Qed.

Lemma filter_all_false (l : list nat) :
  map fst (filter (fun ip : nat * bool => negb (snd ip))
                  (pyzip l (repeat false (length l)))) = l.
Proof. induction l as [|a l IH]; simpl; [reflexivity | now rewrite IH]. Qed.

Lemma existsb_eqb_In i l : existsb (Nat.eqb i) l = true <-> In i l.
Proof.
  rewrite existsb_exists. split.
  - intros (j & Hin & Hj). apply Nat.eqb_eq in Hj. now subst.
  - intros Hin. exists i. split; [exact Hin | apply Nat.eqb_refl].
Qed.

(* ===================================================================== *)
(** * The upper bounds depend on the conserved amounts only *)
(* ===================================================================== *)

Lemma fdiv_feq_l x x' y : feq x x' -> feq (x / y)%float (x' / y)%float.
Proof.
  destruct x as [a| | |], x' as [a'| | |]; simpl; try tauto;
    try (intros _; apply feq_refl).
  intros H. destruct y as [b| | |]; simpl; auto; try lra.
  destruct (Qsgn b); simpl.
  - rewrite (Qsgn_compat _ _ H). apply feq_refl.
  - now rewrite H.
  - now rewrite H.
Qed.

Lemma fltb_feq a a' b b' :
  feq a a' -> feq b b' -> fltb a b = fltb a' b'.
Proof.
  destruct a as [x| | |], a' as [x'| | |]; simpl; try tauto;
    destruct b as [y| | |], b' as [y'| | |]; simpl; try tauto.
  intros H1 H2. now rewrite H1, H2.
Qed.

Lemma py_min_fold_feq r r' :
  Forall2 feq r r' ->
  forall x x', feq x x' ->
    feq (fold_left (fun best y => if fltb y best then y else best) r x)
        (fold_left (fun best y => if fltb y best then y else best) r' x').
Proof.
  induction 1 as [|y y' r r' Hy _ IH]; intros x x' Hx; simpl; [exact Hx|].
  apply IH. rewrite (fltb_feq y y' x x' Hy Hx).
  destruct (fltb y' x'); auto.
Qed.

Lemma py_min_feq (l l' : list float) :
  Forall2 feq l l' -> same_outcome feq (py_min l) (py_min l').
Proof.
  intros [|x x' r r' Hx Hr]; simpl; [reflexivity|].
  now apply py_min_fold_feq.
Qed.

Lemma bound_feq (d d' : list (Z * float)) s :
  (forall k, k <> 0%Z -> feq (dict_get d k) (dict_get d' k)) ->
  same_outcome feq (bind (choose_from d s) py_min)
                   (bind (choose_from d' s) py_min).
Proof.
  intros Hd. rewrite !choose_from_float, !bind_Ok. apply py_min_feq.
  assert (Hkeys : forall item, In item (non_charge s) ->
                               fst item <> 0%Z).
  { intros item Hin. apply non_charge_In in Hin. destruct Hin as [_ Hk].
    now apply Z.eqb_neq. }
  induction (non_charge s) as [|item items IH]; simpl; constructor.
  - apply fdiv_feq_l, Hd, Hkeys. now left.
  - apply IH. intros it Hit. apply Hkeys. now right.
Qed.

Lemma mapM_same_outcome {A} (F F' : A -> result float) l :
  (forall a, In a l -> same_outcome feq (F a) (F' a)) ->
  same_outcome (Forall2 feq) (mapM F l) (mapM F' l).
Proof.
  induction l as [|a l IH]; intros H; simpl; [constructor|].
  pose proof (H a (or_introl eq_refl)) as Ha.
  destruct (F a) as [b|e], (F' a) as [b'|e']; simpl in Ha; try tauto;
    try exact Ha. simpl.
  specialize (IH (fun a' Ha' => H a' (or_intror Ha'))).
  destruct (mapM F l) as [bs|e], (mapM F' l) as [bs'|e']; simpl in IH;
    try tauto; simpl; auto.
Qed.

(* ===================================================================== *)
(** * The condition callbacks *)
(* ===================================================================== *)

Lemma cond_cbs_from sys small :
  forall rest pre,
    rxns sys = pre ++ rest ->
    mapM (fun ri => bind (_fw_cond_factory sys ri None) (fun fw =>
                    bind (_bw_cond_factory sys ri small) (fun bw =>
                    Ok (fw, bw))))
         (phase_transfer_from (length pre) rest)
    = Ok (map (fun r => (fw_cond sys r rtol_default, bw_cond r small))
              (filter has_precipitates rest)).
Proof.
  induction rest as [|r rest IH]; intros pre Hsplit; simpl; [reflexivity|].
  assert (Hnext : rxns sys = (pre ++ [r]) ++ rest)
    by (rewrite <- app_assoc; exact Hsplit).
  specialize (IH (pre ++ [r]) Hnext).
  rewrite length_app in IH. simpl in IH. rewrite Nat.add_1_r in IH.
  destruct (has_precipitates r); [|exact IH].
  simpl. unfold _fw_cond_factory at 1, _bw_cond_factory at 1.
  rewrite Hsplit, getitem_app, !bind_Ok.
  rewrite IH. reflexivity.
Qed.


(* ===================================================================== *)
(** * A root finder that meets its contract *)
(* ===================================================================== *)

Lemma is_zero_feq z : is_zero z = true -> feq z zero.
Proof.
  unfold is_zero. destruct z as [q| | |]; simpl; try discriminate.
  unfold Qlt, Qeq. simpl.
  destruct (Qcompare_spec q 0) as [E|E|E]; try discriminate.
  - intros _. exact E.
  - destruct (Qcompare_spec 0 q) as [E'|E'|E']; try discriminate.
    + intros _. symmetry. exact E'.
    + intros _. exfalso. apply (Qlt_irrefl 0). lra.
Qed.

Lemma fleb_fle x y : fleb x y = true -> fle x y.
Proof.
  unfold fleb. intros H.
  apply andb_true_iff in H. destruct H as [H Hlt].
  apply andb_true_iff in H. destruct H as [Hx Hy].
  apply negb_true_iff in Hx, Hy, Hlt.
  now apply (fltb_false_iff y x Hy Hx).
Qed.

Lemma bisect_checked_contract : brentq_contract bisect_checked.
Proof.
  intros f a b r H. unfold bisect_checked in H.
  apply bind_Ok_inv in H. destruct H as (r0 & _ & H).
  apply bind_Ok_inv in H. destruct H as (z & Hz & H).
  destruct (is_zero z && fleb a r0 && fleb r0 b) eqn:E; [|discriminate].
  inversion H; subst r0.
  apply andb_true_iff in E. destruct E as [E Hb].
  apply andb_true_iff in E. destruct E as [Hzero Ha].
  split; [now apply fleb_fle|]. split; [now apply fleb_fle|].
  exists z. split; [exact Hz | now apply is_zero_feq].
Qed.

(* ===================================================================== *)
(** * Checked properties *)
(* ===================================================================== *)

(** C5. For a concentration vector [c0] and a stoichiometry vector [stoich]
    with nonzero coefficients only, the interval returned by
    [get_rc_interval] has as upper bound the negative of the maximum of the
    negative ratios [c0_i/stoich_i] (0 if no ratio is negative) and as lower
    bound the negative of the minimum of the positive ratios (0 if no ratio
    is positive). *)
Theorem get_rc_interval_bounds stoich c0 lower upper :
  Forall (fun s => s <> 0%Z) stoich ->
  get_rc_interval stoich c0 = Ok (lower, upper) ->
  exists ratios,
    ratios_of stoich c0 ratios /\
    upper_bound_spec ratios (bound_val upper) /\
    lower_bound_spec ratios (bound_val lower).
Proof.
  intros Hnz H. unfold get_rc_interval in H.
  apply bind_Ok_inv in H. destruct H as (limits & Hlim & H).
  apply bind_Ok_inv in H. destruct H as (u & Hu & H).
  apply bind_Ok_inv in H. destruct H as (l & Hl & H).
  destruct (is_int0 l && is_int0 u); [discriminate|].
  inversion H; subst l u. clear H.
  exists limits. split; [now apply rc_limits_ratios|]. split.
  - destruct (rc_upper_spec limits) as (u & Hu' & Hcase).
    rewrite Hu in Hu'. inversion Hu'; subst u.
    destruct Hcase as [[-> Hnone]|(m & -> & Hm)].
    + right. split; auto.
    + left. exists m. split; auto.
  - destruct (rc_lower_spec limits) as (l & Hl' & Hcase).
    rewrite Hl in Hl'. inversion Hl'; subst l.
    destruct Hcase as [[-> Hnone]|(m & -> & Hm)].
    + right. split; auto.
    + left. exists m. split; auto.
Qed.

Lemma get_rc_interval_bounds_witness :
  exists ratios,
    ratios_of [(-1)%Z; 1%Z] [Fin 2; Fin 3] ratios /\
    upper_bound_spec ratios (Fin 2) /\
    lower_bound_spec ratios (Fin (-3)).
Proof.
  apply (get_rc_interval_bounds [(-1)%Z; 1%Z] [Fin 2; Fin 3]
           (Flt (Fin (-3))) (Flt (Fin 2))).
  - repeat constructor; discriminate.
  - reflexivity.
Defined.

(** C6. [get_rc_interval] raises the [0-interval] error exactly when the
    computed interval collapses to [0, 0]; an interval it returns is never
    [(0, 0)]; and the error propagates through [solve_equilibrium], which
    does not return a zero step instead. *)
Theorem get_rc_interval_zero_interval stoich c0 :
  (get_rc_interval stoich c0 = Raise (ValueError "0-interval") <->
   exists limits lower upper,
     rc_limits stoich c0 = Ok limits /\
     rc_lower limits = Ok lower /\ rc_upper limits = Ok upper /\
     feq (bound_val lower) zero /\ feq (bound_val upper) zero) /\
  (forall lower upper,
     get_rc_interval stoich c0 = Ok (lower, upper) ->
     ~ (feq (bound_val lower) zero /\ feq (bound_val upper) zero)) /\
  (forall brentq c0' stoich' K activity_product,
     take stoich' (np_nonzero stoich') = Ok stoich ->
     take c0' (np_nonzero stoich') = Ok c0 ->
     get_rc_interval stoich c0 = Raise (ValueError "0-interval") ->
     solve_equilibrium brentq c0' stoich' K activity_product
     = Raise (ValueError "0-interval")).
Proof.
  assert (Hup : forall limits u, rc_upper limits = Ok u ->
                  feq (bound_val u) zero -> u = Int0).
  { intros limits u Hu Hz.
    destruct (rc_upper_spec limits) as (u' & Hu' & Hcase).
    rewrite Hu in Hu'. inversion Hu'; subst u'.
    destruct Hcase as [[-> _]|(m & -> & _ & Hneg & _)]; auto.
    exfalso. apply flt_zero_fneg in Hneg.
    apply (flt_not_feq _ _ Hneg). now apply feq_sym. }
  assert (Hlo : forall limits l, rc_lower limits = Ok l ->
                  feq (bound_val l) zero -> l = Int0).
  { intros limits l Hl Hz.
    destruct (rc_lower_spec limits) as (l' & Hl' & Hcase).
    rewrite Hl in Hl'. inversion Hl'; subst l'.
    destruct Hcase as [[-> _]|(m & -> & _ & Hpos & _)]; auto.
    exfalso. apply flt_zero_fneg' in Hpos.
    apply (flt_not_feq _ _ Hpos Hz). }
  split; [|split].
  - unfold get_rc_interval. split.
    + intros H.
      destruct (rc_limits stoich c0) as [limits|e] eqn:Hlim; simpl in H.
      2:{ apply zip_with_Raise in Hlim. subst e. discriminate H. }
      destruct (rc_upper_spec limits) as (u & Hu & _).
      destruct (rc_lower_spec limits) as (l & Hl & _).
      rewrite Hu, Hl in H. simpl in H.
      exists limits, l, u.
      destruct l, u; simpl in H; try discriminate H.
      repeat split; auto; apply feq_refl.
    + intros (limits & l & u & Hlim & Hl & Hu & Hzl & Hzu).
      rewrite Hlim. simpl. rewrite Hu. simpl. rewrite Hl. simpl.
      rewrite (Hup _ _ Hu Hzu), (Hlo _ _ Hl Hzl). reflexivity.
  - intros lower upper H [Hzl Hzu]. unfold get_rc_interval in H.
    apply bind_Ok_inv in H. destruct H as (limits & Hlim & H).
    apply bind_Ok_inv in H. destruct H as (u & Hu & H).
    apply bind_Ok_inv in H. destruct H as (l & Hl & H).
    destruct (is_int0 l && is_int0 u) eqn:E; [discriminate|].
    inversion H; subst l u.
    rewrite (Hup _ _ Hu Hzu), (Hlo _ _ Hl Hzl) in E. discriminate.
  - intros brentq c0' stoich' K ap Hs Hc H.
    unfold solve_equilibrium, _solve_equilibrium_coord.
    rewrite Hs. simpl. rewrite Hc. simpl. rewrite H. reflexivity.
Qed.

Lemma get_rc_interval_zero_interval_witness :
  solve_equilibrium bisect [Fin 0; Fin 5] [1%Z; 0%Z] (Fin 2) None
  = Raise (ValueError "0-interval").
Proof.
  apply (proj2 (proj2 (get_rc_interval_zero_interval [1%Z] [Fin 0])));
    reflexivity.
Defined.

(** C4 (as stated, refuted).  With [c0 = [1; 1]], [stoich = [1; 1]] and
    [K = 4] the bracket is [[-1, 0]], on which the residual
    [4 - (1 + rc)^2] has no root: whatever the root finder does,
    [solve_equilibrium] cannot return a step to a root inside the bracket. *)
Lemma solve_equilibrium_no_root_in_bracket :
  ~ exists brentq,
      solve_equilibrium_finds_root brentq [Fin 1; Fin 1] [1%Z; 1%Z] (Fin 4)
        None.
Proof.
  intros (brentq & H).
  assert (Hnz : exists s, In s [1%Z; 1%Z] /\ s <> 0%Z).
  { exists 1%Z. split; [now left | discriminate]. }
  assert (Hb : rc_bracket [Fin 1; Fin 1] [1%Z; 1%Z]
               = Ok (Flt (Fin (-1)), Int0)) by reflexivity.
  assert (Hnd : nondegenerate (Flt (Fin (-1)), Int0)).
  { unfold nondegenerate. simpl. intros E. discriminate E. }
  destruct (H Hnz _ Hb Hnd) as (rc & x & _ & _ & [Hlo Hhi] & (r & Hr & Hz)).
  destruct rc as [q| | |]; simpl in Hlo, Hhi; try contradiction.
  unfold equilibrium_residual, conc_at in Hr. simpl in Hr.
  inversion Hr; subst r. clear Hr.
  unfold equilibrium_quotient, fpow, fpow_pos in Hz. simpl in Hz.
  unfold inject_Z in Hz.
  assert (Hq : ((1 + q) * (1 + q) <= 1)%Q) by nra.
  lra.
Qed.

(** C4 (amended).  For a root finder that meets its contract (what it
    returns lies in the bracket it was given and is a zero of the function),
    [c0] and [stoich] of the same length, and [lu] the bracket that
    [get_rc_interval] computes on the species with a nonzero coefficient:
    whenever the root finder returns [rc] for the residual restricted to
    these species, [solve_equilibrium] returns [c0 + rc*stoich] on the full
    vectors, [rc] lies in the bracket and is a root of the restricted
    residual, and, without an activity product, of
    [K - Q(c0 + rc*stoich)] on the full vectors. *)
Theorem solve_equilibrium_root brentq c0 stoich K activity_product lu rc :
  brentq_contract brentq ->
  length c0 = length stoich ->
  rc_bracket c0 stoich = Ok lu ->
  brentq (fun rc => equilibrium_residual rc (compress stoich c0)
                      (compress stoich stoich) K activity_product)
         (bound_val (fst lu)) (bound_val (snd lu)) = Ok rc ->
  exists x,
    solve_equilibrium brentq c0 stoich K activity_product = Ok x /\
    is_step rc c0 stoich x /\
    in_bracket lu rc /\
    is_root rc (compress stoich c0) (compress stoich stoich) K
      activity_product /\
    (activity_product = None -> is_root rc c0 stoich K None).
Proof.
  intros Hcontract Hlen Hlu Hrc.
  destruct (Hcontract _ _ _ _ Hrc) as (Hlo & Hhi & z & Hz & Hzero).
  destruct (zip_with_Ok fadd c0 (map (fun s => (rc * of_Z s)%float) stoich))
    as [x Hx]; [now rewrite length_map|].
  exists x. split; [|split; [|split; [|split]]].
  - unfold solve_equilibrium, _solve_equilibrium_coord.
    rewrite (take_np_nonzero stoich stoich eq_refl), bind_Ok.
    rewrite (take_np_nonzero stoich c0 Hlen), bind_Ok.
    unfold rc_bracket in Hlu. rewrite Hlu, bind_Ok, Hrc, bind_Ok.
    exact Hx.
  - split.
    + now destruct (zip_with_length _ _ _ _ Hx).
    + intros i c s Hc Hs.
      apply (zip_with_nth _ _ _ _ i _ _ Hx Hc).
      now apply (map_nth_error (fun s => (rc * of_Z s)%float)).
  - split; assumption.
  - exists z. split; assumption.
  - intros ->.
    destruct (zip_with_Ok fadd c0 (map (fun s => (of_Z s * rc)%float) stoich))
      as [c Hc]; [now rewrite length_map|].
    assert (Hfull : equilibrium_residual rc c0 stoich K None
                    = Ok (K - equilibrium_quotient c stoich)%float).
    { unfold equilibrium_residual, conc_at. rewrite Hc. reflexivity. }
    destruct (equilibrium_residual_compress _ _ _ _ _ Hfull)
      as (r' & Hr' & Hfeq).
    rewrite Hr' in Hz. inversion Hz; subst r'.
    eexists. split; [exact Hfull|]. eapply feq_trans; eauto.
Qed.

Lemma solve_equilibrium_root_witness :
  exists x,
    solve_equilibrium bisect_checked [Fin 1; Fin 0; Fin 7]
      [(-1)%Z; 1%Z; 0%Z] (Fin 1) None = Ok x /\
    is_step (Fin (1 # 2)) [Fin 1; Fin 0; Fin 7] [(-1)%Z; 1%Z; 0%Z] x /\
    in_bracket (Int0, Flt (Fin 1)) (Fin (1 # 2)) /\
    is_root (Fin (1 # 2)) [Fin 1; Fin 0] [(-1)%Z; 1%Z] (Fin 1) None /\
    (@None (list float -> float) = None ->
     is_root (Fin (1 # 2)) [Fin 1; Fin 0; Fin 7] [(-1)%Z; 1%Z; 0%Z] (Fin 1)
       None).
Proof.
  apply (solve_equilibrium_root bisect_checked [Fin 1; Fin 0; Fin 7]
           [(-1)%Z; 1%Z; 0%Z] (Fin 1) None (Int0, Flt (Fin 1)) (Fin (1 # 2))).
  - exact bisect_checked_contract.
  - reflexivity.
  - reflexivity.
  - reflexivity.
Defined.




(** C3 (as stated, refuted).  In the example system, with initial
    concentrations [[1; 2; 0; 0]], the candidate [[0; 0; 0; 0]] is accepted,
    although both conserved quantities are [0] instead of [1] and [2]. *)
Lemma sane_result_not_conserved :
  ~ sane_implies_conserved example_sys [Fin 1; Fin 2; Fin 0; Fin 0]
      [Fin 0; Fin 0; Fin 0; Fin 0].
Proof.
  intros H.
  destruct H as (keys & m1 & m2 & Hc & Hclose).
  { exists []. reflexivity. }
  vm_compute in Hc. inversion Hc; subst keys m1 m2. clear Hc.
  inversion Hclose as [|a b l l' Hab _]; subst.
  vm_compute in Hab. apply Hab. reflexivity.
Qed.

(** C3 (amended).  A candidate [x] that [_result_is_sane] accepts emits no
    warning and has every entry neither negative nor above its
    conservation-derived upper bound times [1 + 1e-12]; the conservation
    balance itself is not examined. *)
Theorem result_is_sane_accepts sys init_concs x ws :
  _result_is_sane sys init_concs x = Ok (true, ws) ->
  ws = [] /\
  exists ub,
    upper_conc_bounds sys init_concs py_min = Ok ub /\
    length x = length ub /\
    forall i xi bi,
      nth_error x i = Some xi -> nth_error ub i = Some bi ->
      ~ flt xi zero /\ ~ flt (bi * sane_tol)%float xi /\
      (is_nan xi = false -> fle zero xi) /\
      (is_nan xi = false -> is_nan (bi * sane_tol)%float = false ->
       fle xi (bi * sane_tol)%float).
Proof.
  intros H.
  destruct (result_is_sane_inv _ _ _ _ _ H) as (ub & Hub & Hlen).
  destruct (result_is_sane_unfold sys init_concs x ub Hub Hlen)
    as (gt & Hgt & Heq).
  rewrite H in Heq. cbv zeta in Heq.
  pose proof (neg_conc_iff x) as Hneg.
  pose proof (too_much_iff x ub gt Hgt) as Htoo.
  destruct (np_any (map (fun xi => (xi <? zero)%float) x)) eqn:En;
    destruct (np_any gt) eqn:Et; simpl in Heq; try discriminate.
  inversion Heq; subst ws. split; [reflexivity|].
  exists ub. repeat split; auto.
  - intros Hf. assert (has_negative x).
    { exists xi. split; auto. eapply nth_error_In; eauto. }
    apply Hneg in H2. discriminate.
  - intros Hf. assert (exceeds_bound ub x) by (exists i, xi, bi; auto).
    apply Htoo in H2. discriminate.
  - intros Hn. apply not_flt_fle; auto.
    intros Hf. assert (has_negative x).
    { exists xi. split; auto. eapply nth_error_In; eauto. }
    apply Hneg in H2. discriminate.
  - intros Hn Hb. apply not_flt_fle; auto.
    intros Hf. assert (exceeds_bound ub x) by (exists i, xi, bi; auto).
    apply Htoo in H2. discriminate.
Qed.

Lemma result_is_sane_accepts_witness :
  @nil warning = [] /\
  exists ub,
    upper_conc_bounds example_sys [Fin 1; Fin 2; Fin 0; Fin 0] py_min
    = Ok ub /\
    length [Fin 0; Fin 0; Fin 0; Fin 0] = length ub /\
    forall i xi bi,
      nth_error [Fin 0; Fin 0; Fin 0; Fin 0] i = Some xi ->
      nth_error ub i = Some bi ->
      ~ flt xi zero /\ ~ flt (bi * sane_tol)%float xi /\
      (is_nan xi = false -> fle zero xi) /\
      (is_nan xi = false -> is_nan (bi * sane_tol)%float = false ->
       fle xi (bi * sane_tol)%float).
Proof.
  apply (result_is_sane_accepts example_sys [Fin 1; Fin 2; Fin 0; Fin 0]
           [Fin 0; Fin 0; Fin 0; Fin 0] []).
  reflexivity.
Defined.

(** C7. For a precipitation reaction with precipitate coefficient [s] and a
    state [x] with dissolved projection [d], the forward condition returns
    true iff [s > 0] and [Q*(1+rtol) < K], or [s < 0] and [Q > K*(1+rtol)],
    with [Q] the quotient on [d] and [rtol] defaulting to 1e-14; the
    backward condition returns true iff the concentration of the precipitate
    in [x] is at or above [small], and false otherwise. *)
Theorem phase_conditions_spec sys ri rxn rtol small x p d :
  nth_error (rxns sys) ri = Some rxn ->
  dissolved sys x = Ok d ->
  exists fw bw,
    _fw_cond_factory sys ri rtol = Ok fw /\
    _bw_cond_factory sys ri small = Ok bw /\
    _fw_cond_factory sys ri None
    = Ok (fw_cond sys rxn (Fin (1 # 100000000000000))) /\
    (fw x p = Ok true <->
     undersaturated (s_stoich rxn) (rxn_Q rxn d) (rxn_K rxn)
       (match rtol with Some t => t | None => rtol_default end)) /\
    (forall xi,
       nth_error x (s_idx rxn) = Some xi ->
       is_nan xi = false -> is_nan small = false ->
       (bw x p = Ok true <-> fle small xi) /\
       (bw x p = Ok false <-> ~ fle small xi)).
Proof.
  intros Hrxn Hd.
  unfold _fw_cond_factory, _bw_cond_factory, getitem. rewrite Hrxn. simpl.
  eexists; eexists. split; [reflexivity|]. split; [reflexivity|].
  split; [reflexivity|]. split.
  - unfold fw_cond, undersaturated. rewrite Hd. simpl.
    destruct (Z.gtb_spec (s_stoich rxn) 0) as [Hs|Hs].
    + rewrite <- fltb_flt. split.
      * intros H. inversion H as [H']. rewrite H'. left. split; [lia|].
        reflexivity.
      * intros [[_ H]|[Hneg _]]; [now rewrite H | lia].
    + destruct (Z.ltb_spec (s_stoich rxn) 0) as [Hs'|Hs'].
      * rewrite <- (fltb_flt (rxn_K rxn * _)%float). unfold fgtb. split.
        -- intros H. inversion H as [H']. rewrite H'. right. split; [lia|].
           reflexivity.
        -- intros [[Hpos _]|[_ H]]; [lia | now rewrite H].
      * split; [discriminate|]. intros [[? _]|[? _]]; lia.
  - intros xi Hxi Hn Hs. unfold bw_cond, getitem. rewrite Hxi. simpl.
    pose proof (fltb_false_iff xi small Hn Hs) as Hiff.
    destruct (fltb xi small) eqn:E.
    + assert (Hnle : ~ fle small xi)
        by (intros Hle; apply Hiff in Hle; discriminate).
      split; split; try discriminate; try tauto; auto.
    + assert (Hle : fle small xi) by now apply Hiff.
      split; split; try discriminate; try tauto; auto.
Qed.

Lemma phase_conditions_spec_witness :
  exists fw bw,
    _fw_cond_factory example_sys 1 None = Ok fw /\
    _bw_cond_factory example_sys 1 small_square = Ok bw /\
    _fw_cond_factory example_sys 1 None
    = Ok (fw_cond example_sys example_rxn2 (Fin (1 # 100000000000000))) /\
    (fw [Fin 0; Fin 0; Fin 200; Fin 1] [] = Ok true <->
     undersaturated (s_stoich example_rxn2)
       (rxn_Q example_rxn2 [Fin 0; Fin 0; Fin 201; Fin 0])
       (rxn_K example_rxn2) rtol_default) /\
    (forall xi,
       nth_error [Fin 0; Fin 0; Fin 200; Fin 1] (s_idx example_rxn2)
       = Some xi ->
       is_nan xi = false -> is_nan small_square = false ->
       (bw [Fin 0; Fin 0; Fin 200; Fin 1] [] = Ok true <->
        fle small_square xi) /\
       (bw [Fin 0; Fin 0; Fin 200; Fin 1] [] = Ok false <->
        ~ fle small_square xi)).
Proof.
  apply (phase_conditions_spec example_sys 1 example_rxn2 None small_square
           [Fin 0; Fin 0; Fin 200; Fin 1] []
           [Fin 0; Fin 0; Fin 201; Fin 0]);
    reflexivity.
Defined.

(** C2 (as stated, refuted).  In the example system, at the state
    [[0; 0; 200; 1]], the forward and the backward condition of the
    precipitation reaction are both true. *)
Lemma phase_conditions_both_true :
  ~ conditions_exclusive example_sys 1 None small_square
      [Fin 0; Fin 0; Fin 200; Fin 1] [].
Proof.
  intros H.
  assert (Hfw : _fw_cond_factory example_sys 1 None
                = Ok (fw_cond example_sys example_rxn2 rtol_default))
    by reflexivity.
  assert (Hbw : _bw_cond_factory example_sys 1 small_square
                = Ok (bw_cond example_rxn2 small_square))
    by reflexivity.
  apply (H _ _ Hfw Hbw). split; vm_compute; reflexivity.
Qed.

(** C2 (amended).  The two conditions test different things and overlap:
    they are both true exactly when the quotient of the dissolved projection
    passes the forward test and the precipitate is at or above [small]; in
    particular they are never both true at a state whose precipitate
    concentration is below [small]. *)
Theorem phase_conditions_overlap sys ri rxn rtol small x p d xi :
  nth_error (rxns sys) ri = Some rxn ->
  dissolved sys x = Ok d ->
  nth_error x (s_idx rxn) = Some xi ->
  is_nan xi = false -> is_nan small = false ->
  ((fw_cond sys rxn (match rtol with Some t => t | None => rtol_default end)
      x p = Ok true /\
    bw_cond rxn small x p = Ok true) <->
   (undersaturated (s_stoich rxn) (rxn_Q rxn d) (rxn_K rxn)
      (match rtol with Some t => t | None => rtol_default end) /\
    fle small xi)) /\
  (flt xi small -> conditions_exclusive sys ri rtol small x p).
Proof.
  intros Hrxn Hd Hxi Hn Hs.
  assert (Hbw : bw_cond rxn small x p = Ok true <-> fle small xi).
  { unfold bw_cond, getitem. rewrite Hxi. simpl.
    pose proof (fltb_false_iff xi small Hn Hs) as Hiff.
    destruct (fltb xi small) eqn:E; split; try discriminate; auto.
    - intros Hle. apply Hiff in Hle. discriminate.
    - intros _. now apply Hiff. }
  assert (Hfw : forall t, fw_cond sys rxn t x p = Ok true <->
                  undersaturated (s_stoich rxn) (rxn_Q rxn d) (rxn_K rxn) t).
  { intros t. unfold fw_cond, undersaturated. rewrite Hd. simpl.
    destruct (Z.gtb_spec (s_stoich rxn) 0) as [Hs0|Hs0].
    - rewrite <- fltb_flt. split.
      + intros H. inversion H as [H']. rewrite H'. left. split; [lia|].
        reflexivity.
      + intros [[_ H]|[Hneg _]]; [now rewrite H | lia].
    - destruct (Z.ltb_spec (s_stoich rxn) 0) as [Hs'|Hs'].
      + rewrite <- (fltb_flt (rxn_K rxn * _)%float). unfold fgtb. split.
        * intros H. inversion H as [H']. rewrite H'. right. split; [lia|].
          reflexivity.
        * intros [[Hpos _]|[_ H]]; [lia | now rewrite H].
      + split; [discriminate|]. intros [[? _]|[? _]]; lia. }
  split.
  - rewrite Hbw, Hfw. tauto.
  - intros Hlt fw bw Hf Hb [_ Hboth].
    unfold _bw_cond_factory, getitem in Hb. rewrite Hrxn in Hb. simpl in Hb.
    inversion Hb; subst bw. apply Hbw in Hboth.
    apply fle_not_fltb in Hboth. apply fltb_flt in Hlt. congruence.
Qed.

Lemma phase_conditions_overlap_witness :
  ((fw_cond example_sys example_rxn2 rtol_default
      [Fin 0; Fin 0; Fin 200; Fin 1] [] = Ok true /\
    bw_cond example_rxn2 small_square [Fin 0; Fin 0; Fin 200; Fin 1] []
    = Ok true) <->
   (undersaturated (s_stoich example_rxn2)
      (rxn_Q example_rxn2 [Fin 0; Fin 0; Fin 201; Fin 0])
      (rxn_K example_rxn2) rtol_default /\
    fle small_square (Fin 1))) /\
  (flt (Fin 1) small_square ->
   conditions_exclusive example_sys 1 None small_square
     [Fin 0; Fin 0; Fin 200; Fin 1] []).
Proof.
  apply (phase_conditions_overlap example_sys 1 example_rxn2 None
           small_square [Fin 0; Fin 0; Fin 200; Fin 1] []
           [Fin 0; Fin 0; Fin 201; Fin 0] (Fin 1));
    reflexivity.
Defined.




(** C1 (as stated, refuted).  For the reaction [A = B] with [K = 2], at
    [y = [0; 0]], the equilibrium row built by [NumSysLog.f] is
    [(A·y) - log 2], not [(A·y) + log 2]. *)
Lemma log_equilibrium_row_sign :
  ~ equil_rows_plus_log stoichs_plain no_rref log_example
      [0%R; 0%R] [1%R; 0%R; 2%R].
Proof.
  intros Hclaim.
  assert (HA : _get_A_ks stoichs_plain no_rref log_example NumSysLog.small
                 (skipn (ns (eqsys log_example)) [1%R; 0%R; 2%R])
               = Ok ([[IZR (-1); IZR 1]], [2%R])) by reflexivity.
  assert (Hlog : b_log 2%R = Ok (ln 2)) by (apply np_log_Ok; lra).
  destruct (NumSysLog_f_unfold stoichs_plain no_rref log_example
              [0%R; 0%R] [1%R; 0%R; 2%R] _ _ HA)
    as (terms & Hf & _ & Hterms).
  { intros k [<-|[]]. eauto. }
  destruct (Hterms 0%nat 2%R eq_refl) as (l & Hl & Ht).
  rewrite Hlog in Hl. inversion Hl; subst l.
  pose proof (Hclaim _ _ _ HA Hf 0%nat [IZR (-1); IZR 1] 2%R (ln 2)
                eq_refl eq_refl Hlog) as Hrow.
  rewrite nth_error_app1 in Hrow
    by (rewrite mat_dot_vec_terms_length; destruct terms;
        [discriminate Ht | simpl; lia]).
  rewrite (mat_dot_vec_terms_nth [[IZR (-1); IZR 1]] [0%R; 0%R] terms 0
             [IZR (-1); IZR 1] _ eq_refl Ht) in Hrow.
  inversion Hrow as [Heq]. simpl in Heq.
  pose proof ln_2_pos. lra.
Qed.

(** C1 (amended).  For the Log strategy, when the logarithms of the
    equilibrium constants exist, the residual vector built by [f] consists
    of the equilibrium rows [(A·y)_i - log(k_i)] followed by the
    conservation rows, which apply the linear balance form to [exp(y)]
    componentwise: [B·exp(y) - B·init_concs] without row reduction. *)
Theorem NumSysLog_f_residuals {T : Type} `{Backend T}
    (stoichs : EqSystem -> list nat -> list (list Z))
    (linear_rref : list (list T) -> list T -> list (list T) * list T)
    (self : NumSys) (y params : list T) A ks :
  _get_A_ks stoichs linear_rref self NumSysLog.small
    (skipn (ns (eqsys self)) params) = Ok (A, ks) ->
  (forall k, In k ks -> exists l, b_log k = Ok l) ->
  let B := matrix_of_Z (fst (composition_balance_vectors (eqsys self))) in
  let init_concs := firstn (ns (eqsys self)) params in
  exists f_equil f_preserv,
    NumSysLog.f stoichs linear_rref self y params
    = Ok (f_equil ++ f_preserv) /\
    length f_equil = Nat.min (length A) (length ks) /\
    (forall i row k,
       nth_error A i = Some row -> nth_error ks i = Some k ->
       exists l, b_log k = Ok l /\
                 nth_error f_equil i
                 = Some (n_add (vec_dot_vec row y) (n_neg l))) /\
    f_preserv
    = linear_exprs linear_rref B (map b_exp y)
        (mat_dot_vec B init_concs None) (rref_preserv self) /\
    (rref_preserv self = false ->
     length f_preserv = length B /\
     forall j row,
       nth_error B j = Some row ->
       nth_error f_preserv j
       = Some (n_sub (vec_dot_vec row (map b_exp y))
                     (vec_dot_vec row init_concs))).
Proof.
  intros HA Hlog B init_concs.
  destruct (NumSysLog_f_unfold stoichs linear_rref self y params A ks HA Hlog)
    as (terms & Hf & Hlen & Hterms).
  exists (mat_dot_vec A y (Some terms)).
  eexists. split; [exact Hf|]. split; [|split; [|split]].
  - now rewrite mat_dot_vec_terms_length, Hlen.
  - intros i row k Hrow Hk.
    destruct (Hterms i k Hk) as (l & Hl & Ht).
    exists l. split; auto. now apply mat_dot_vec_terms_nth.
  - reflexivity.
  - intros Hrref. fold B. fold init_concs. rewrite Hrref. split.
    + rewrite linear_exprs_plain_length. unfold mat_dot_vec.
      rewrite length_map. apply Nat.min_id.
    + intros j row Hrow. apply linear_exprs_plain_nth; auto.
      now apply mat_dot_vec_nth.
Qed.

Lemma NumSysLog_f_residuals_witness :
  exists f_equil f_preserv,
    NumSysLog.f stoichs_plain no_rref log_example [0%R; 0%R]
      [1%R; 0%R; 2%R] = Ok (f_equil ++ f_preserv) /\
    length f_equil = 1%nat /\
    (forall i row k,
       nth_error [[IZR (-1); IZR 1]] i = Some row ->
       nth_error [2%R] i = Some k ->
       exists l, b_log k = Ok l /\
                 nth_error f_equil i
                 = Some (n_add (vec_dot_vec row [0%R; 0%R]) (n_neg l))) /\
    f_preserv
    = linear_exprs no_rref [[IZR 1; IZR 1]] (map exp [0%R; 0%R])
        (mat_dot_vec [[IZR 1; IZR 1]] [1%R; 0%R] None) false /\
    (false = false ->
     length f_preserv = 1%nat /\
     forall j row,
       nth_error [[IZR 1; IZR 1]] j = Some row ->
       nth_error f_preserv j
       = Some (n_sub (vec_dot_vec row (map exp [0%R; 0%R]))
                     (vec_dot_vec row [1%R; 0%R]))).
Proof.
  assert (Hlog : forall k, In k [2%R] -> exists l, b_log k = Ok l).
  { intros k [<-|[]]. exists (ln 2). apply np_log_Ok. lra. }
  exact (NumSysLog_f_residuals stoichs_plain no_rref log_example
           [0%R; 0%R] [1%R; 0%R; 2%R] [[IZR (-1); IZR 1]] [2%R]
           eq_refl Hlog).
Defined.

(** C8 (as stated, refuted).  For the Tanh-bounded strategy, with upper
    bounds [[1; 1]], the vector [[2; 2]] has all entries above the floor
    [0], but [pre_processor] has no value there: the argument of [arctanh]
    is [12/5]. *)
Lemma tanh_no_round_trip :
  ~ round_trips (NumSysLinTanh.pre_processor log_example)
      (NumSysLinTanh.post_processor log_example) NumSysLinTanh.small
      [2%R; 2%R] [1%R; 0%R; 2%R].
Proof.
  intros H. destruct H as (y & p & Hpre & _).
  { unfold NumSysLinTanh.small. repeat constructor; lra. }
  unfold NumSysLinTanh.pre_processor in Hpre.
  change (firstn (ns (eqsys log_example)) [1%R; 0%R; 2%R])
    with [1%R; 0%R] in Hpre.
  change (eqsys log_example) with log_example_sys in Hpre.
  rewrite log_example_bounds in Hpre. rewrite bind_Ok in Hpre.
  unfold zip_withM in Hpre. simpl in Hpre.
  rewrite (R_div_Ok (8 * 2) 1) in Hpre by lra. simpl in Hpre.
  rewrite np_arctanh_Raise in Hpre by lra. discriminate Hpre.
Qed.

(** C8 (amended).  In exact real arithmetic, with [m] the upper bounds of
    the initial concentrations: Linear-Relative returns [x] when every bound
    is nonzero; Square-root returns [x] when no entry is negative;
    Tanh-bounded returns [x] when every bound is nonzero and every
    [(8*x_i/m_i - 4)/5] lies strictly between [-1] and [1]; Log returns
    [x + small], with [small = exp(-80)], when every entry exceeds [-small].
    The parameter vector passes through unchanged in all four. *)
Theorem processors_round_trip self x params m :
  upper_conc_bounds (eqsys self) (firstn (ns (eqsys self)) params) py_min
  = Ok m ->
  (Forall2 (fun xi b => b <> 0%R) x m ->
   exists y,
     NumSysLinRel.pre_processor self x params = Ok (y, params) /\
     NumSysLinRel.post_processor self y params = Ok (x, params)) /\
  (Forall (fun v => (0 <= v)%R) x ->
   exists y,
     NumSysSquare.pre_processor self x params = Ok (y, params) /\
     NumSysSquare.post_processor self y params = Ok (x, params)) /\
  (Forall2 (fun xi b => b <> 0%R /\ (Rabs ((8 * xi / b - 4) / 5) < 1)%R)
           x m ->
   exists y,
     NumSysLinTanh.pre_processor self x params = Ok (y, params) /\
     NumSysLinTanh.post_processor self y params = Ok (x, params)) /\
  (Forall (fun v => (- NumSysLog.small < v)%R) x ->
   exists y,
     NumSysLog.pre_processor self x params = Ok (y, params) /\
     NumSysLog.post_processor self y params
     = Ok (map (fun v => (v + NumSysLog.small)%R) x, params)).
Proof.
  intros Hm. split; [|split; [|split]].
  - intros HF.
    destruct (zip_withM_Forall2 R_div Rdiv x m) as (y & Hy & Hg).
    { eapply Forall2_impl2; [|exact HF]. intros xi b Hb.
      now apply R_div_Ok. }
    exists y. unfold NumSysLinRel.pre_processor, NumSysLinRel.post_processor,
      NumSysLinRel.max_concs.
    rewrite Hm. simpl. rewrite Hy. simpl. split; [reflexivity|].
    rewrite (zip_with_round_trip Rdiv Rmult x m y); auto.
    eapply Forall2_impl2; [|exact HF]. intros xi b Hb. simpl. now field.
  - intros HF. eexists. split; [reflexivity|].
    unfold NumSysSquare.post_processor. rewrite map_map.
    rewrite (map_id_Forall (fun v => (sqrt (Rabs v) ^ 2)%R) x); auto.
    eapply Forall_impl; [|exact HF]. intros v Hv. now apply sqrt_abs_square.
  - intros HF.
    destruct (zip_withM_Forall2
                (fun xi ym => bind (R_div (8 * xi) ym)
                                (fun q => np_arctanh ((q - 4) / 5)))
                (fun xi ym => arctanh ((8 * xi / ym - 4) / 5)) x m)
      as (y & Hy & Hg).
    { eapply Forall2_impl2; [|exact HF]. intros xi b [Hb Hu]. simpl.
      rewrite R_div_Ok by auto. simpl. now apply np_arctanh_Ok. }
    exists y. unfold NumSysLinTanh.pre_processor,
      NumSysLinTanh.post_processor.
    rewrite Hm. simpl. rewrite Hy. simpl. split; [reflexivity|].
    rewrite (zip_with_round_trip
               (fun xi ym => arctanh ((8 * xi / ym - 4) / 5))
               (fun xi ym => (ym * (4 + 5 * tanh xi) / 8)%R) x m y); auto.
    eapply Forall2_impl2; [|exact HF]. intros xi b [Hb Hu]. simpl.
    rewrite tanh_arctanh by auto. now field.
  - intros HF.
    exists (map (fun v => ln (v + NumSysLog.small)) x).
    unfold NumSysLog.pre_processor, NumSysLog.post_processor.
    rewrite (mapM_map (fun v => np_log (v + NumSysLog.small))
               (fun v => ln (v + NumSysLog.small)) x).
    + rewrite bind_Ok. split; [reflexivity|]. rewrite map_map.
      do 2 f_equal. apply map_ext_in. intros v Hv. apply exp_ln.
      rewrite Forall_forall in HF. specialize (HF v Hv). lra.
    + eapply Forall_impl; [|exact HF]. intros v Hv. cbv beta.
      apply np_log_Ok. lra.
Qed.

Lemma processors_round_trip_witness :
  (exists y,
     NumSysLinRel.pre_processor log_example [(1 / 2)%R; (1 / 4)%R]
       [1%R; 0%R; 2%R] = Ok (y, [1%R; 0%R; 2%R]) /\
     NumSysLinRel.post_processor log_example y [1%R; 0%R; 2%R]
     = Ok ([(1 / 2)%R; (1 / 4)%R], [1%R; 0%R; 2%R])) /\
  (exists y,
     NumSysSquare.pre_processor log_example [(1 / 2)%R; (1 / 4)%R]
       [1%R; 0%R; 2%R] = Ok (y, [1%R; 0%R; 2%R]) /\
     NumSysSquare.post_processor log_example y [1%R; 0%R; 2%R]
     = Ok ([(1 / 2)%R; (1 / 4)%R], [1%R; 0%R; 2%R])) /\
  (exists y,
     NumSysLinTanh.pre_processor log_example [(1 / 2)%R; (1 / 4)%R]
       [1%R; 0%R; 2%R] = Ok (y, [1%R; 0%R; 2%R]) /\
     NumSysLinTanh.post_processor log_example y [1%R; 0%R; 2%R]
     = Ok ([(1 / 2)%R; (1 / 4)%R], [1%R; 0%R; 2%R])) /\
  (exists y,
     NumSysLog.pre_processor log_example [(1 / 2)%R; (1 / 4)%R]
       [1%R; 0%R; 2%R] = Ok (y, [1%R; 0%R; 2%R]) /\
     NumSysLog.post_processor log_example y [1%R; 0%R; 2%R]
     = Ok (map (fun v => (v + NumSysLog.small)%R) [(1 / 2)%R; (1 / 4)%R],
           [1%R; 0%R; 2%R])).
Proof.
  destruct (processors_round_trip log_example [(1 / 2)%R; (1 / 4)%R]
              [1%R; 0%R; 2%R] [1%R; 1%R] log_example_bounds)
    as (H1 & H2 & H3 & H4).
  pose proof NumSysLog_small_pos as Hs.
  split; [|split; [|split]].
  - apply H1. repeat constructor; lra.
  - apply H2. repeat constructor; lra.
  - apply H3. repeat constructor; try lra;
      apply Rabs_def1; lra.
  - apply H4. repeat constructor; lra.
Defined.

(* ===================================================================== *)
(** * Further properties of the code *)
(* ===================================================================== *)

(** X1. An interval returned by [get_rc_interval] contains the reaction
    coordinate 0: its lower bound is at most 0, its upper bound at least 0,
    and one of the two is strict. *)
Theorem get_rc_interval_contains_zero stoich c0 lower upper :
  get_rc_interval stoich c0 = Ok (lower, upper) ->
  in_bracket (lower, upper) zero /\
  (flt (bound_val lower) zero \/ flt zero (bound_val upper)).
Proof.
  intros H. destruct (get_rc_interval_inv _ _ _ _ H)
    as (limits & _ & Hu & Hl & Hint).
  destruct (rc_upper_spec limits) as (u & Hu' & Hucase).
  rewrite Hu in Hu'. inversion Hu'; subst u. clear Hu'.
  destruct (rc_lower_spec limits) as (l & Hl' & Hlcase).
  rewrite Hl in Hl'. inversion Hl'; subst l. clear Hl'.
  assert (Hup : fle zero (bound_val upper) /\
                (upper = Int0 \/ flt zero (bound_val upper))).
  { destruct Hucase as [[-> _]|(m & -> & _ & Hneg & _)].
    - split; [apply fle_refl; reflexivity | now left].
    - apply flt_zero_fneg in Hneg. split; [now apply flt_fle | now right]. }
  assert (Hlo : fle (bound_val lower) zero /\
                (lower = Int0 \/ flt (bound_val lower) zero)).
  { destruct Hlcase as [[-> _]|(m & -> & _ & Hpos & _)].
    - split; [apply fle_refl; reflexivity | now left].
    - apply flt_zero_fneg' in Hpos. split; [now apply flt_fle | now right]. }
  destruct Hup as [Hup1 Hup2], Hlo as [Hlo1 Hlo2].
  split; [split; assumption|].
  destruct Hlo2 as [->|Hlo2]; [|now left].
  destruct Hup2 as [->|Hup2]; [discriminate Hint | now right].
Qed.

Lemma get_rc_interval_contains_zero_witness :
  in_bracket (Flt (Fin (-3)), Flt (Fin 2)) zero /\
  (flt (bound_val (Flt (Fin (-3)))) zero \/
   flt zero (bound_val (Flt (Fin 2)))).
Proof.
  apply (get_rc_interval_contains_zero [(-1)%Z; 1%Z] [Fin 2; Fin 3]).
  reflexivity.
Defined.

(** X4. When the bracket exists, [solve_equilibrium] raises exactly what the
    root finder raises; and when the root finder returns a finite
    coordinate, the result has the length of [c0] and every species with a
    zero coefficient keeps its concentration. *)
Theorem solve_equilibrium_outcome brentq c0 stoich K activity_product lu :
  length c0 = length stoich ->
  rc_bracket c0 stoich = Ok lu ->
  let residual := fun rc =>
    equilibrium_residual rc (compress stoich c0) (compress stoich stoich) K
      activity_product in
  (forall e,
     brentq residual (bound_val (fst lu)) (bound_val (snd lu)) = Raise e ->
     solve_equilibrium brentq c0 stoich K activity_product = Raise e) /\
  (forall r,
     brentq residual (bound_val (fst lu)) (bound_val (snd lu)) = Ok (Fin r) ->
     exists x,
       solve_equilibrium brentq c0 stoich K activity_product = Ok x /\
       length x = length c0 /\
       forall i q, nth_error stoich i = Some 0%Z ->
                   nth_error c0 i = Some (Fin q) ->
                   exists v, nth_error x i = Some v /\ feq v (Fin q)).
Proof.
  intros Hlen Hlu residual.
  assert (Hcoord : _solve_equilibrium_coord brentq c0 stoich K
                     activity_product
                   = brentq residual (bound_val (fst lu))
                       (bound_val (snd lu))).
  { unfold _solve_equilibrium_coord.
    rewrite (take_np_nonzero stoich stoich eq_refl). rewrite bind_Ok.
    rewrite (take_np_nonzero stoich c0 Hlen). rewrite bind_Ok.
    unfold rc_bracket in Hlu. rewrite Hlu. rewrite bind_Ok. reflexivity. }
  split.
  - intros e He. unfold solve_equilibrium. rewrite Hcoord, He. reflexivity.
  - intros r Hr.
    destruct (zip_with_Ok fadd c0
                (map (fun s => (Fin r * of_Z s)%float) stoich))
      as [x Hx]; [now rewrite length_map|].
    exists x. split; [|split].
    + unfold solve_equilibrium. rewrite Hcoord, Hr. rewrite bind_Ok.
      exact Hx.
    + now destruct (zip_with_length _ _ _ _ Hx).
    + intros i q Hs Hq. eexists. split.
      * apply (zip_with_nth fadd c0 _ x i (Fin q)
                 (Fin r * of_Z 0)%float Hx Hq).
        apply (map_nth_error (fun s => (Fin r * of_Z s)%float) i stoich Hs).
      * simpl. unfold inject_Z. ring.
Qed.

Lemma solve_equilibrium_outcome_witness :
  (forall e,
     bisect (fun rc => equilibrium_residual rc [Fin 1; Fin 0] [(-1)%Z; 1%Z]
                         (Fin 1) None)
            (bound_val Int0) (bound_val (Flt (Fin 1))) = Raise e ->
     solve_equilibrium bisect [Fin 1; Fin 0; Fin 7] [(-1)%Z; 1%Z; 0%Z]
       (Fin 1) None = Raise e) /\
  (forall r,
     bisect (fun rc => equilibrium_residual rc [Fin 1; Fin 0] [(-1)%Z; 1%Z]
                         (Fin 1) None)
            (bound_val Int0) (bound_val (Flt (Fin 1))) = Ok (Fin r) ->
     exists x,
       solve_equilibrium bisect [Fin 1; Fin 0; Fin 7] [(-1)%Z; 1%Z; 0%Z]
         (Fin 1) None = Ok x /\
       length x = length [Fin 1; Fin 0; Fin 7] /\
       forall i q, nth_error [(-1)%Z; 1%Z; 0%Z] i = Some 0%Z ->
                   nth_error [Fin 1; Fin 0; Fin 7] i = Some (Fin q) ->
                   exists v, nth_error x i = Some v /\ feq v (Fin q)).
Proof.
  exact (solve_equilibrium_outcome bisect [Fin 1; Fin 0; Fin 7]
           [(-1)%Z; 1%Z; 0%Z] (Fin 1) None (Int0, Flt (Fin 1))
           eq_refl eq_refl).
Defined.

(** X5. [upper_conc_bounds] returns one bound per substance when every
    substance has a component other than the charge; when some substance has
    none, Python's [min] is applied to an empty list, and the [ValueError]
    it raises is also what [_result_is_sane] raises, whatever the
    candidate. *)
Theorem upper_conc_bounds_defined sys (init_concs : list float) :
  (Forall (fun s => non_charge s <> []) (substances sys) ->
   exists ub, upper_conc_bounds sys init_concs py_min = Ok ub /\
              length ub = ns sys) /\
  (Exists (fun s => non_charge s = []) (substances sys) ->
   upper_conc_bounds sys init_concs py_min
   = Raise (ValueError "min() arg is an empty sequence") /\
   forall x, _result_is_sane sys init_concs x
             = Raise (ValueError "min() arg is an empty sequence")).
Proof.
  split; [apply upper_conc_bounds_Ok|].
  intros Hex.
  assert (Hraise : upper_conc_bounds sys init_concs py_min
                   = Raise (ValueError "min() arg is an empty sequence")).
  { unfold upper_conc_bounds.
    change (mapM (fun s_obj =>
                    bind (choose_from (composition_conc sys init_concs) s_obj)
                         py_min) (substances sys)
            = Raise (ValueError "min() arg is an empty sequence")).
    apply mapM_Raise.
    - intros s _.
      destruct (bound_of_substance (composition_conc sys init_concs) s)
        as [[_ Hr]|[_ (m & Hm & _)]]; eauto.
    - eapply Exists_impl; [|exact Hex]. intros s Hnil. simpl in Hnil.
      destruct (bound_of_substance (composition_conc sys init_concs) s)
        as [[_ Hr]|[Hne _]]; [exact Hr | contradiction]. }
  split; [exact Hraise|].
  intros x. unfold _result_is_sane. rewrite Hraise. reflexivity.
Qed.

Lemma upper_conc_bounds_defined_witness :
  (exists ub, upper_conc_bounds example_sys [Fin 1; Fin 2; Fin 0; Fin 0]
                py_min = Ok ub /\ length ub = ns example_sys) /\
  (upper_conc_bounds
     {| substances := [ {| composition := [(0, -1)]%Z; phase_idx := 0 |} ];
        rxns := [] |} [Fin 1] py_min
   = Raise (ValueError "min() arg is an empty sequence") /\
   forall x,
     _result_is_sane
       {| substances := [ {| composition := [(0, -1)]%Z; phase_idx := 0 |} ];
          rxns := [] |} [Fin 1] x
     = Raise (ValueError "min() arg is an empty sequence")).
Proof.
  split.
  - apply (proj1 (upper_conc_bounds_defined example_sys
                    [Fin 1; Fin 2; Fin 0; Fin 0])).
    repeat constructor; discriminate.
  - apply (proj2 (upper_conc_bounds_defined
                    {| substances :=
                         [ {| composition := [(0, -1)]%Z; phase_idx := 0 |} ];
                       rxns := [] |} [Fin 1])).
    constructor. reflexivity.
Defined.

(** X6. The initial concentrations pass their own sanity check: when they
    are finite and non-negative, one per substance, and every substance has
    a non-charge component with positive coefficients only,
    [_result_is_sane(init_concs, init_concs)] is [True] without warning. *)
Theorem initial_concentrations_sane sys init_concs :
  length init_concs = ns sys ->
  all_nonneg init_concs ->
  Forall (fun s => non_charge s <> []) (substances sys) ->
  Forall positive_coefficients (substances sys) ->
  _result_is_sane sys init_concs init_concs = Ok (true, []).
Proof.
  intros Hlen Hnn Hcomp Hpos.
  destruct (upper_conc_bounds_Ok sys init_concs Hcomp) as (ub & Hub & Hublen).
  assert (Hlen' : length init_concs = length ub) by congruence.
  destruct (result_is_sane_unfold sys init_concs init_concs ub Hub Hlen')
    as (gt & Hgt & Heq).
  assert (Hneg : np_any (map (fun xi => (xi <? zero)%float) init_concs)
                 = false).
  { destruct (np_any (map (fun xi => (xi <? zero)%float) init_concs)) eqn:E;
      auto.
    apply neg_conc_iff in E. destruct E as (xi & Hin & Hlt).
    unfold all_nonneg in Hnn. rewrite Forall_forall in Hnn.
    destruct (Hnn xi Hin) as (q & -> & Hq). simpl in Hlt. lra. }
  assert (Htoo : np_any gt = false).
  { destruct (np_any gt) eqn:E; auto.
    apply (too_much_iff _ _ _ Hgt) in E.
    destruct E as (i & xi & bi & Hxi & Hbi & Hlt).
    pose proof Hnn as Hnn'.
    unfold all_nonneg in Hnn'. rewrite Forall_forall in Hnn'.
    destruct (Hnn' xi (nth_error_In _ _ Hxi)) as (q & -> & Hq).
    assert (Hi : (i < length (substances sys))%nat).
    { fold (ns sys). rewrite <- Hlen. apply nth_error_Some. congruence. }
    destruct (nth_error (substances sys) i) as [s|] eqn:Hs;
      [|apply nth_error_None in Hs; lia].
    destruct (upper_conc_bounds_nth _ _ _ _ _ _ Hub Hs Hbi)
      as (item & Hitem & ->).
    destruct (composition_conc_lower sys init_concs i s q item
                Hnn Hpos Hxi Hs Hitem) as (t & Ht & Hle).
    rewrite Forall_forall in Hpos.
    pose proof (Hpos s (nth_error_In _ _ Hs)) as Hps.
    unfold positive_coefficients in Hps. rewrite Forall_forall in Hps.
    pose proof (Hps item Hitem) as Hc.
    rewrite Ht in Hlt.
    rewrite (fdiv_of_Z_nonzero t (snd item)) in Hlt by lia.
    apply inject_Z_pos in Hc. simpl in Hlt.
    assert (Hdiv : (q <= t / inject_Z (snd item))%Q).
    { apply Qle_shift_div_l; auto. lra. }
    nra. }
  rewrite Heq. cbv zeta. rewrite Hneg, Htoo. reflexivity.
Qed.

Lemma initial_concentrations_sane_witness :
  _result_is_sane example_sys [Fin 1; Fin 2; Fin 0; Fin 0]
    [Fin 1; Fin 2; Fin 0; Fin 0] = Ok (true, []).
Proof.
  apply initial_concentrations_sane.
  - reflexivity.
  - repeat constructor; eexists; (split; [reflexivity|]); discriminate.
  - repeat constructor; discriminate.
  - repeat constructor.
Defined.

(** X10.  The sanity check accepts every state that creates no material:
    when the initial concentrations and [x] are finite and non-negative, one
    per substance, every substance has a component other than charge, its
    non-charge coefficients are positive and its keys are distinct, and for
    every component [k] other than charge the amount of [k] in [x]
    ([composition_balance]) does not exceed that in [init_concs], then
    [_result_is_sane(init_concs, x)] is [True] without warning. *)
Theorem bounded_composition_is_sane sys init_concs x :
  length init_concs = ns sys -> length x = ns sys ->
  all_nonneg init_concs -> all_nonneg x ->
  Forall (fun s => non_charge s <> []) (substances sys) ->
  Forall positive_coefficients (substances sys) ->
  Forall unique_keys (substances sys) ->
  (forall k, k <> 0%Z ->
     fle (composition_balance (substances sys) x k)
         (composition_balance (substances sys) init_concs k)) ->
  _result_is_sane sys init_concs x = Ok (true, []).
Proof.
  intros Hlen Hlenx Hnn Hnnx Hcomp Hpos Huniq Hbal.
  destruct (upper_conc_bounds_Ok sys init_concs Hcomp) as (ub & Hub & Hublen).
  assert (Hlen' : length x = length ub) by congruence.
  destruct (result_is_sane_unfold sys init_concs x ub Hub Hlen')
    as (gt & Hgt & Heq).
  assert (Hneg : np_any (map (fun xi => (xi <? zero)%float) x) = false).
  { destruct (np_any (map (fun xi => (xi <? zero)%float) x)) eqn:E; auto.
    apply neg_conc_iff in E. destruct E as (xi & Hin & Hlt).
    unfold all_nonneg in Hnnx. rewrite Forall_forall in Hnnx.
    destruct (Hnnx xi Hin) as (q & -> & Hq). simpl in Hlt. lra. }
  assert (Htoo : np_any gt = false).
  { destruct (np_any gt) eqn:E; auto.
    apply (too_much_iff _ _ _ Hgt) in E.
    destruct E as (i & xi & bi & Hxi & Hbi & Hlt).
    destruct (all_nonneg_map _ Hnn) as (qs0 & -> & Hqs0).
    destruct (all_nonneg_map _ Hnnx) as (qs & -> & Hqs).
    rewrite nth_error_map in Hxi.
    destruct (nth_error qs i) as [q|] eqn:Hq; [|discriminate].
    inversion Hxi; subst xi.
    assert (Hq0 : (0 <= q)%Q).
    { rewrite Forall_forall in Hqs. apply Hqs. eapply nth_error_In; eauto. }
    assert (Hi : (i < length (substances sys))%nat).
    { fold (ns sys). rewrite <- Hlenx, length_map. apply nth_error_Some.
      congruence. }
    destruct (nth_error (substances sys) i) as [s|] eqn:Hs;
      [|apply nth_error_None in Hs; lia].
    destruct (upper_conc_bounds_nth _ _ _ _ _ _ Hub Hs Hbi)
      as (item & Hitem & ->).
    pose proof Hitem as Hitem'. apply non_charge_In in Hitem'.
    destruct Hitem' as [Hin Hkey]. apply Z.eqb_neq in Hkey.
    destruct (composition_conc_total (fst item) (substances sys) Hkey Huniq
                qs0 [] 0%Q eq_refl) as (t & Ht & Hte).
    unfold composition_conc in Hlt. rewrite Ht in Hlt.
    pose proof (Hbal (fst item) Hkey) as Hb.
    unfold composition_balance, zero in Hb.
    rewrite !composition_balance_Fin in Hb. simpl in Hb.
    assert (Hposs : forall s', In s' (substances sys) ->
                               (0 <= comp_get s' (fst item))%Z).
    { intros s' Hs'. apply comp_get_nonneg; auto.
      rewrite Forall_forall in Hpos. now apply Hpos. }
    destruct (balance_Q_lower (fst item) (substances sys) Hposs qs 0%Q Hqs)
      as [_ Hlow].
    pose proof (Hlow i s q Hs Hq) as Hshare.
    rewrite Forall_forall in Huniq.
    rewrite (comp_get_item s item (Huniq s (nth_error_In _ _ Hs)) Hin)
      in Hshare.
    rewrite Forall_forall in Hpos.
    pose proof (Hpos s (nth_error_In _ _ Hs)) as Hps.
    unfold positive_coefficients in Hps. rewrite Forall_forall in Hps.
    pose proof (Hps item Hitem) as Hc.
    rewrite (fdiv_of_Z_nonzero t (snd item)) in Hlt by lia.
    apply inject_Z_pos in Hc. simpl in Hlt.
    assert (Hdiv : (q <= t / inject_Z (snd item))%Q).
    { apply Qle_shift_div_l; auto. lra. }
    nra. }
  rewrite Heq. cbv zeta. rewrite Hneg, Htoo. reflexivity.
Qed.

Lemma bounded_composition_is_sane_witness :
  _result_is_sane example_sys [Fin 1; Fin 2; Fin 0; Fin 0]
    [Fin 0; Fin 1; Fin 1; Fin 0] = Ok (true, []).
Proof.
  apply bounded_composition_is_sane.
  - reflexivity.
  - reflexivity.
  - repeat constructor; eexists; (split; [reflexivity|]); discriminate.
  - repeat constructor; eexists; (split; [reflexivity|]); discriminate.
  - repeat constructor; discriminate.
  - repeat constructor.
  - repeat constructor; simpl; intuition discriminate.
  - intros k Hk.
    destruct (Z.eq_dec k 1) as [->|H1]; [intros H; discriminate H|].
    destruct (Z.eq_dec k 2) as [->|H2]; [intros H; discriminate H|].
    assert (E1 : Z.eqb 1 k = false) by (apply Z.eqb_neq; congruence).
    assert (E2 : Z.eqb 2 k = false) by (apply Z.eqb_neq; congruence).
    cbv [composition_balance comp_get substances example_sys
         example_substances composition pyzip fold_left find fst snd].
    rewrite E1, E2. intros H; discriminate H.
Defined.

(** X12.  The conserved amounts computed by [composition_conservation] are
    those of [composition_balance]: for vectors with one entry per
    substance, the two arrays it returns hold, for every conserved key,
    [composition_balance] of [concs] and of [init_concs]. *)
Theorem composition_conservation_balance sys concs init_concs :
  length concs = ns sys -> length init_concs = ns sys ->
  composition_conservation sys concs init_concs
  = Ok (composition_keys sys,
        map (composition_balance (substances sys) concs)
            (composition_keys sys),
        map (composition_balance (substances sys) init_concs)
            (composition_keys sys)).
Proof.
  intros Hc Hi. unfold composition_conservation, composition_balance_vectors.
  rewrite (mapM_map_arg (fun row => np_dot row concs)
             (fun k => map (fun s => comp_get s k) (substances sys))
             (composition_balance (substances sys) concs))
    by (intros k _; now apply np_dot_balance).
  rewrite bind_Ok.
  rewrite (mapM_map_arg (fun row => np_dot row init_concs)
             (fun k => map (fun s => comp_get s k) (substances sys))
             (composition_balance (substances sys) init_concs))
    by (intros k _; now apply np_dot_balance).
  rewrite bind_Ok. reflexivity.
Qed.

Lemma composition_conservation_balance_witness :
  composition_conservation example_sys [Fin 0; Fin 1; Fin 1; Fin 0]
    [Fin 1; Fin 2; Fin 0; Fin 0]
  = Ok (composition_keys example_sys,
        map (composition_balance (substances example_sys)
               [Fin 0; Fin 1; Fin 1; Fin 0])
            (composition_keys example_sys),
        map (composition_balance (substances example_sys)
               [Fin 1; Fin 2; Fin 0; Fin 0])
            (composition_keys example_sys)).
Proof.
  apply composition_conservation_balance; reflexivity.
Defined.

(** X13.  Which equilibrium constants [eq_constants] replaces by [small]
    when it is given [non_precip_rids(precipitates)], as [_get_A_ks] does:
    the constant of reaction [i] is replaced exactly when the reaction has a
    precipitate and its flag, at the reaction's place among the
    phase-transfer reactions, is [False]; every other reaction, also one
    whose flag is missing, keeps its constant. *)
Theorem eq_constants_non_precip sys precs eq_params small i k :
  nth_error eq_params i = Some k ->
  nth_error (eq_constants sys (non_precip_rids sys precs) (Some eq_params)
               small) i
  = Some (if solid_absent sys precs i then small else k).
Proof.
  intros Hk. unfold eq_constants.
  rewrite (eq_constants_from_nth small _ eq_params 0 i k Hk).
  simpl Nat.add. now rewrite non_precip_rids_solid_absent.
Qed.

Lemma eq_constants_non_precip_witness :
  nth_error (eq_constants example_sys (non_precip_rids example_sys [false])
               (Some [Fin 5; Fin 7]) zero) 1
  = Some (if solid_absent example_sys [false] 1 then zero else Fin 7).
Proof.
  apply eq_constants_non_precip. reflexivity.
Defined.

(** X14.  The linear and the logarithmic formulation have the same roots:
    when no solid is flagged absent, the constants are positive and
    [prodpow] is the product of powers on positive bases, then for every
    positive concentration vector [c] both [NumSysLin.f] at [c] and
    [NumSysLog.f] at [log(c)] return a residual vector, of the same length,
    and a row of one vanishes exactly when the same row of the other
    does. *)
Theorem lin_log_same_roots stoichs linear_rref prodpow self c params :
  prodpow_on_positive prodpow ->
  non_precip_rids (eqsys self) (precipitates self) = [] ->
  Forall (fun v => (0 < v)%R) c ->
  Forall (fun k => (0 < k)%R) (skipn (ns (eqsys self)) params) ->
  exists rl rg,
    NumSysLin.f stoichs linear_rref prodpow NumSysLin.small self c params
    = Ok rl /\
    NumSysLog.f stoichs linear_rref self (map ln c) params = Ok rg /\
    same_zero_rows rl rg.
Proof.
  intros Hpp Hrids Hc Hk.
  destruct (stoichs_constants_pos stoichs linear_rref (eqsys self)
              (skipn (ns (eqsys self)) params) (rref_equil self) [] Hk)
    as (A & ks & HA & Hks).
  assert (HAs : forall small,
            _get_A_ks stoichs linear_rref self small
              (skipn (ns (eqsys self)) params) = Ok (A, ks)).
  { intros small. unfold _get_A_ks. rewrite Hrids.
    rewrite eq_constants_from_nil. exact HA. }
  eexists. eexists. split; [|split].
  - unfold NumSysLin.f, _inits_and_eq_params. rewrite HAs, bind_Ok.
    rewrite (Hpp c A Hc). reflexivity.
  - unfold NumSysLog.f, _inits_and_eq_params. rewrite HAs, bind_Ok.
    rewrite (mapM_neg_log ks Hks), bind_Ok. reflexivity.
  - unfold same_zero_rows. apply Forall2_app.
    + now apply equil_rows_same.
    + simpl. change (map b_exp (map ln c)) with (map exp (map ln c)).
      rewrite (map_exp_ln c Hc). apply same_zero_rows_refl.
Qed.

Lemma lin_log_same_roots_witness :
  exists rl rg,
    NumSysLin.f stoichs_plain no_rref prodpow_positive NumSysLin.small
      log_example [1%R; 2%R] [3%R; 0%R; 2%R] = Ok rl /\
    NumSysLog.f stoichs_plain no_rref log_example (map ln [1%R; 2%R])
      [3%R; 0%R; 2%R] = Ok rg /\
    same_zero_rows rl rg.
Proof.
  apply (lin_log_same_roots stoichs_plain no_rref prodpow_positive
           log_example [1%R; 2%R] [3%R; 0%R; 2%R]).
  - intros c A _. reflexivity.
  - reflexivity.
  - repeat constructor; lra.
  - repeat constructor; lra.
Defined.

(** X15.  The equilibrium rows of [NumSysLin.f] without row reduction: with
    [q] the entry of [prodpow] for reaction [i] and [k] its constant, the
    row is [q/k - 1]; for a reaction whose solid is flagged absent, [k] is
    [self.small] instead; and when the constant in use is zero the row is
    [q] itself, so that no division by zero takes place. *)
Theorem NumSysLin_f_rows stoichs linear_rref prodpow self_small self y params
    i k q :
  rref_equil self = false ->
  nth_error (skipn (ns (eqsys self)) params) i = Some k ->
  nth_error
    (prodpow y
       (matrix_of_Z
          (stoichs (eqsys self)
             (non_precip_rids (eqsys self) (precipitates self))))) i
  = Some q ->
  exists r,
    NumSysLin.f stoichs linear_rref prodpow self_small self y params = Ok r /\
    nth_error r i
    = Some (let k' := if solid_absent (eqsys self) (precipitates self) i
                      then self_small else k in
            if Req_dec_T k' 0 then q else (q / k' - 1)%R).
Proof.
  intros Hrref Hk Hq.
  unfold NumSysLin.f, _inits_and_eq_params, _get_A_ks, stoichs_constants.
  rewrite Hrref, bind_Ok.
  eexists. split; [reflexivity|].
  pose proof (eq_constants_from_nth self_small
                (non_precip_rids (eqsys self) (precipitates self))
                _ 0 i k Hk) as Hk'.
  simpl Nat.add in Hk'. rewrite non_precip_rids_solid_absent in Hk'.
  pose proof (pyzip_nth _ _ i _ _ Hq Hk') as Hz.
  apply (map_nth_error
           (fun qk : R * R => if Req_dec_T (snd qk) 0 then fst qk
                              else (fst qk / snd qk - 1)%R)) in Hz.
  rewrite nth_error_app1.
  - rewrite Hz. reflexivity.
  - apply nth_error_Some. rewrite Hz. discriminate.
Qed.

Lemma NumSysLin_f_rows_witness :
  exists r,
    NumSysLin.f stoichs_plain no_rref prodpow_positive NumSysLin.small
      log_example [1%R; 2%R] [3%R; 0%R; 2%R] = Ok r /\
    nth_error r 0
    = Some (let k' := if solid_absent (eqsys log_example)
                           (precipitates log_example) 0
                      then NumSysLin.small else 2%R in
            if Req_dec_T k' 0
            then (1 * Rpower 1 (IZR (-1)) * Rpower 2 (IZR 1))%R
            else (1 * Rpower 1 (IZR (-1)) * Rpower 2 (IZR 1) / k' - 1)%R).
Proof.
  apply (NumSysLin_f_rows stoichs_plain no_rref prodpow_positive
           NumSysLin.small log_example [1%R; 2%R] [3%R; 0%R; 2%R] 0 2%R);
    reflexivity.
Defined.

(** X16.  The default flags.  [get_neqsys_static_conditions] without
    [precipitates] flags every phase-transfer reaction as having no solid:
    [non_precip_rids] then returns all of [phase_transfer_reaction_idxs],
    which are exactly the indices of the reactions with a precipitate, and
    [eq_constants] replaces the constant of each of them by [small].  With
    the empty flags that a [_NumSys] has by default, [non_precip_rids] is
    empty. *)
Theorem static_conditions_default sys :
  non_precip_rids sys (default_precipitates sys)
  = phase_transfer_reaction_idxs sys /\
  non_precip_rids sys [] = [] /\
  (forall i, In i (phase_transfer_reaction_idxs sys) <->
             exists r, nth_error (rxns sys) i = Some r /\
                       has_precipitates r = true) /\
  (forall eq_params small i,
     nth_error
       (eq_constants sys (non_precip_rids sys (default_precipitates sys))
          (Some eq_params) small) i
     = match nth_error eq_params i, nth_error (rxns sys) i with
       | Some k, Some r => Some (if has_precipitates r then small else k)
       | Some k, None => Some k
       | None, _ => None
       end).
Proof.
  assert (Hall : non_precip_rids sys (default_precipitates sys)
                 = phase_transfer_reaction_idxs sys).
  { unfold non_precip_rids, default_precipitates. apply filter_all_false. }
  assert (Hidx : forall i, In i (phase_transfer_reaction_idxs sys) <->
                           exists r, nth_error (rxns sys) i = Some r /\
                                     has_precipitates r = true).
  { intros i. unfold phase_transfer_reaction_idxs.
    rewrite phase_transfer_from_In. split.
    - intros (i' & r & Hi & H). simpl in Hi. subst i'. eauto.
    - intros (r & H). exists i, r. auto. }
  split; [exact Hall|]. split; [|split; [exact Hidx|]].
  - unfold non_precip_rids.
    destruct (phase_transfer_reaction_idxs sys); reflexivity.
  - intros eq_params small i. rewrite Hall. unfold eq_constants.
    destruct (nth_error eq_params i) as [k|] eqn:Hk.
    + rewrite (eq_constants_from_nth small _ eq_params 0 i k Hk).
      simpl Nat.add.
      destruct (existsb (Nat.eqb i) (phase_transfer_reaction_idxs sys))
        eqn:E.
      * apply existsb_eqb_In, Hidx in E. destruct E as (r & -> & ->).
        reflexivity.
      * destruct (nth_error (rxns sys) i) as [r|] eqn:Hr; [|reflexivity].
        destruct (has_precipitates r) eqn:Hp; [|reflexivity].
        assert (Hin : In i (phase_transfer_reaction_idxs sys))
          by (apply Hidx; eauto).
        apply existsb_eqb_In in Hin. congruence.
    + apply nth_error_None. apply nth_error_None in Hk.
      clear -Hk. revert Hk. generalize 0%nat. revert i.
      induction eq_params as [|e rest IH]; intros i b Hk; simpl in *; [lia|].
      destruct i as [|i]; [lia|]. simpl. apply le_n_S. apply IH. lia.
Qed.

(** X18.  The upper bounds depend on the initial concentrations through the
    conserved amounts only: for two finite vectors of initial concentrations
    with the same [composition_balance] in every component other than
    charge (the keys of each composition being distinct),
    [upper_conc_bounds] ends alike on both: the same exception, or bounds
    that are equal entry by entry. *)
Theorem upper_conc_bounds_conserved sys init_concs init_concs' :
  all_finite init_concs -> all_finite init_concs' ->
  Forall unique_keys (substances sys) ->
  (forall k, k <> 0%Z ->
     feq (composition_balance (substances sys) init_concs k)
         (composition_balance (substances sys) init_concs' k)) ->
  same_outcome (Forall2 feq)
    (upper_conc_bounds sys init_concs py_min)
    (upper_conc_bounds sys init_concs' py_min).
Proof.
  intros Hfin Hfin' Huniq Hbal.
  destruct (all_finite_map _ Hfin) as [qs ->].
  destruct (all_finite_map _ Hfin') as [qs' ->].
  unfold upper_conc_bounds.
  change (same_outcome (Forall2 feq)
            (mapM (fun s_obj =>
                     bind (choose_from (composition_conc sys (map Fin qs))
                             s_obj) py_min) (substances sys))
            (mapM (fun s_obj =>
                     bind (choose_from (composition_conc sys (map Fin qs'))
                             s_obj) py_min) (substances sys))).
  apply mapM_same_outcome. intros s _. apply bound_feq. intros k Hk.
  destruct (composition_conc_total k (substances sys) Hk Huniq qs [] 0%Q
              eq_refl) as (t & Ht & Hte).
  destruct (composition_conc_total k (substances sys) Hk Huniq qs' [] 0%Q
              eq_refl) as (t' & Ht' & Hte').
  unfold composition_conc. rewrite Ht, Ht'. simpl.
  specialize (Hbal k Hk). unfold composition_balance, zero in Hbal.
  rewrite !composition_balance_Fin in Hbal. simpl in Hbal.
  now rewrite Hte, Hte'.
Qed.

Lemma upper_conc_bounds_conserved_witness :
  same_outcome (Forall2 feq)
    (upper_conc_bounds example_sys [Fin 1; Fin 2; Fin 0; Fin 0] py_min)
    (upper_conc_bounds example_sys [Fin 0; Fin 1; Fin 1; Fin 0] py_min).
Proof.
  apply upper_conc_bounds_conserved.
  - repeat constructor.
  - repeat constructor.
  - repeat constructor; simpl; intuition discriminate.
  - intros k Hk.
    destruct (Z.eq_dec k 1) as [->|H1]; [vm_compute; reflexivity|].
    destruct (Z.eq_dec k 2) as [->|H2]; [vm_compute; reflexivity|].
    assert (E1 : Z.eqb 1 k = false) by (apply Z.eqb_neq; congruence).
    assert (E2 : Z.eqb 2 k = false) by (apply Z.eqb_neq; congruence).
    cbv [composition_balance comp_get substances example_sys
         example_substances composition pyzip fold_left find fst snd].
    rewrite E1, E2. vm_compute. reflexivity.
Defined.

(** X19.  The condition callbacks of the conditional systems: building the
    list [[(_fw_cond_factory(ri), _bw_cond_factory(ri, small)) for ri in
    phase_transfer_reaction_idxs()]] never raises, and the list holds, in
    the order of the reactions, one pair for each reaction with a
    precipitate: its forward condition with the default tolerance and its
    backward condition with [small]. *)
Theorem cond_cbs_spec sys small :
  cond_cbs sys small
  = Ok (map (fun r => (fw_cond sys r rtol_default, bw_cond r small))
            (filter has_precipitates (rxns sys))).
Proof.
  unfold cond_cbs, phase_transfer_reaction_idxs.
  exact (cond_cbs_from sys small (rxns sys) [] eq_refl).
Qed.

